(** * The in-memory log window of dragonboat (internal/raft/inmemory.go)

    A shallow embedding of [inMemory] and its methods, followed by the
    properties of the window that the specification states.

    Conventions of the embedding:
    - a Go [uint64] is a [Z] in [0, 2^64); every [+] and [-] of the source
      is written with its wrap-around, [wrap64];
    - a Go slice is a [list]; the capacity of a slice is not modelled, so
      [resizeEntrySlice], which only changes the capacity, keeps the
      contents;
    - a Go panic ([plog.Panicf], an index or a slice bound out of range) is
      the result [Panic]; a method that can panic returns a [Result];
    - [min], the minimum of two [uint64] of the package, is [Z.min]. *)

From Stdlib Require Import ZArith Lia Strings.Byte.
From stdpp Require Import base list.

Open Scope Z_scope.

(** ** Machine integers *)

Definition wrap64 (x : Z) : Z := x mod 2 ^ 64.

Definition u64 (x : Z) : Prop := 0 <= x < 2 ^ 64.

Definition maxUint64 : Z := 2 ^ 64 - 1.

(** ** Panics *)

Inductive Result (A : Type) : Type :=
| Ok (a : A)
| Panic.

Arguments Ok {A} a.
Arguments Panic {A}.

#[global] Instance Result_ret : MRet Result := fun A a => Ok a.

#[global] Instance Result_bind : MBind Result := fun A B f r =>
  match r with
  | Ok a => f a
  | Panic => Panic
  end.

(** ** Slices

    [s[i]], [s[a:]] and [s[a:b]] of Go, with their run-time bound checks.
    The operands are [uint64] values of the source, hence never negative.
    Go checks the upper bound of [s[a:b]] against the capacity; without
    capacities it is checked against the length, which is what every use
    in this file has established before it slices. *)

Definition index_at {A : Type} (s : list A) (i : Z) : Result A :=
  match s !! Z.to_nat i with
  | Some x => Ok x
  | None => Panic
  end.

Definition slice_from {A : Type} (s : list A) (a : Z) : Result (list A) :=
  if Z.of_nat (length s) <? a then Panic
  else Ok (drop (Z.to_nat a) s).

Definition slice {A : Type} (s : list A) (a b : Z) : Result (list A) :=
  if (b <? a) || (Z.of_nat (length s) <? b) then Panic
  else Ok (take (Z.to_nat (b - a)) (drop (Z.to_nat a) s)).

(** ** The protocol buffer types (package raftpb) *)

(** Modelled from the spec: [pb.Entry] is declared outside this file; the
    window reads its [Index] and [Term] and carries the rest as an opaque
    payload. *)
Module Entry.
Record t : Type := mk { Term : Z; Index : Z; Cmd : list byte }.
End Entry.

(** Modelled from the spec: [pb.Snapshot], of which the window reads
    [Index] and [Term]. *)
Module Snapshot.
Record t : Type := mk { Index : Z; Term : Z }.
End Snapshot.

(** Modelled from the spec: [pb.UpdateCommit], of which the window reads
    these three fields; zero stands for an absent field. *)
Module UpdateCommit.
Record t : Type := mk {
  StableLogTo : Z;
  StableLogTerm : Z;
  StableSnapshotTo : Z
}.
End UpdateCommit.

(** ** The window *)

Record inMemory : Type := mkInMemory {
  snapshot : option Snapshot.t;
  entries : list Entry.t;
  markerIndex : Z;
  savedTo : Z
}.

Definition set_snapshot (s : option Snapshot.t) (im : inMemory) : inMemory :=
  mkInMemory s (entries im) (markerIndex im) (savedTo im).

Definition set_entries (l : list Entry.t) (im : inMemory) : inMemory :=
  mkInMemory (snapshot im) l (markerIndex im) (savedTo im).

Definition set_markerIndex (m : Z) (im : inMemory) : inMemory :=
  mkInMemory (snapshot im) (entries im) m (savedTo im).

Definition set_savedTo (v : Z) (im : inMemory) : inMemory :=
  mkInMemory (snapshot im) (entries im) (markerIndex im) v.

(** [uint64(len(im.entries))]; the length of a slice is an [int] of Go. *)
Definition len (l : list Entry.t) : Z := Z.of_nat (length l).

Definition newInMemory (lastIndex : Z) : inMemory :=
  {| snapshot := None;
     entries := [];
     markerIndex := wrap64 (lastIndex + 1);
     savedTo := lastIndex |}.

Definition checkMarkerIndex (im : inMemory) : Result unit :=
  match entries im with
  | e :: _ => if Entry.Index e =? markerIndex im then Ok () else Panic
  | [] => Ok ()
  end.

(** [im.markerIndex + uint64(len(im.entries))], the 64-bit sum that
    [getEntries] calls [upperBound] and that [merge] compares with. *)
Definition upperBound (im : inMemory) : Z :=
  wrap64 (markerIndex im + len (entries im)).

Definition getEntries (im : inMemory) (low high : Z) : Result (list Entry.t) :=
  if (high <? low) || (low <? markerIndex im) then Panic
  else if upperBound im <? high then Panic
  else slice (entries im) (wrap64 (low - markerIndex im))
                          (wrap64 (high - markerIndex im)).

Definition getSnapshotIndex (im : inMemory) : Z * bool :=
  match snapshot im with
  | Some ss => (Snapshot.Index ss, true)
  | None => (0, false)
  end.

Definition getLastIndex (im : inMemory) : Z * bool :=
  match last (entries im) with
  | Some e => (Entry.Index e, true)
  | None => getSnapshotIndex im
  end.

Definition getTerm (im : inMemory) (index : Z) : Result (Z * bool) :=
  if index <? markerIndex im then
    let '(idx, ok) := getSnapshotIndex im in
    if ok && (idx =? index) then
      match snapshot im with
      | Some ss => Ok (Snapshot.Term ss, true)
      | None => Panic
      end
    else Ok (0, false)
  else
    let '(lastIndex, ok) := getLastIndex im in
    if ok && (index <=? lastIndex) then
      e ← index_at (entries im) (wrap64 (index - markerIndex im));
      Ok (Entry.Term e, true)
    else Ok (0, false).

Definition entriesToSave (im : inMemory) : Result (list Entry.t) :=
  let idx := wrap64 (savedTo im + 1) in
  if len (entries im) <? wrap64 (idx - markerIndex im) then Ok []
  else slice_from (entries im) (wrap64 (idx - markerIndex im)).

Definition savedLogTo (im : inMemory) (index term : Z) : Result inMemory :=
  if index <? markerIndex im then Ok im
  else
    match last (entries im) with
    | None => Ok im
    | Some l =>
        if Entry.Index l <? index then Ok im
        else
          e ← index_at (entries im) (wrap64 (index - markerIndex im));
          if negb (term =? Entry.Term e) then Ok im
          else Ok (set_savedTo index im)
    end.

(** The second branch of the source only logs a warning. *)
Definition savedSnapshotTo (im : inMemory) (index : Z) : inMemory :=
  let '(idx, ok) := getSnapshotIndex im in
  if ok && (idx =? index) then set_snapshot None im
  else if ok && negb (idx =? index) then im
  else im.

Definition commitUpdate (im : inMemory) (cu : UpdateCommit.t) : Result inMemory :=
  im1 ← (if 0 <? UpdateCommit.StableLogTo cu
         then savedLogTo im (UpdateCommit.StableLogTo cu)
                            (UpdateCommit.StableLogTerm cu)
         else Ok im);
  Ok (if 0 <? UpdateCommit.StableSnapshotTo cu
      then savedSnapshotTo im1 (UpdateCommit.StableSnapshotTo cu)
      else im1).

(** The slice is rebuilt with the same elements and a larger capacity. *)
Definition resizeEntrySlice (im : inMemory) : inMemory :=
  set_entries ([] ++ entries im) im.

Definition appliedLogTo (im : inMemory) (index : Z) : Result inMemory :=
  if index <? markerIndex im then Ok im
  else
    match last (entries im) with
    | None => Ok im
    | Some l =>
        if Entry.Index l <? index then Ok im
        else
          let newMarkerIndex := index in
          rest ← slice_from (entries im)
                            (wrap64 (newMarkerIndex - markerIndex im));
          let im1 := set_markerIndex newMarkerIndex (set_entries rest im) in
          let im2 := resizeEntrySlice im1 in
          checkMarkerIndex im2;;
          Ok im2
    end.

(** Every entry of [l] but the last is followed by the entry of the next
    index; the indices are compared as integers, so that an entry of index
    [2^64 - 1] has no successor. *)
Fixpoint contiguousb (l : list Entry.t) : bool :=
  match l with
  | a :: (b :: _) as rest =>
      (Entry.Index b =? Entry.Index a + 1) && contiguousb rest
  | _ => true
  end.

(** Modelled from the spec: [checkEntriesToAppend] is defined in another
    file of the package.  The spec has it require, of any two entries [a]
    immediately followed by [b] in the reconciled sequence, that
    [b.index = a.index + 1], and fault otherwise. *)
Definition checkEntriesToAppend (ents toAppend : list Entry.t) : Result unit :=
  if contiguousb (ents ++ toAppend) then Ok () else Panic.

(** Modelled from the spec: [newEntrySlice] is defined in another file of
    the package; it copies its argument into storage of its own. *)
Definition newEntrySlice (ents : list Entry.t) : list Entry.t := ents.

Definition merge (im : inMemory) (ents : list Entry.t) : Result inMemory :=
  e0 ← index_at ents 0;
  let firstNewIndex := Entry.Index e0 in
  let im := resizeEntrySlice im in
  im' ← (if firstNewIndex =? upperBound im then
           checkEntriesToAppend (entries im) ents;;
           Ok (set_entries (entries im ++ ents) im)
         else if firstNewIndex <=? markerIndex im then
           let im1 := set_markerIndex firstNewIndex im in
           let im2 := set_entries (newEntrySlice ents) im1 in
           Ok (set_savedTo (wrap64 (firstNewIndex - 1)) im2)
         else
           existing ← getEntries im (markerIndex im) firstNewIndex;
           checkEntriesToAppend existing ents;;
           let im1 := set_entries (([] ++ existing) ++ ents) im in
           Ok (set_savedTo (Z.min (savedTo im1) (wrap64 (firstNewIndex - 1))) im1));
  checkMarkerIndex im';;
  Ok im'.

Definition restore (im : inMemory) (ss : Snapshot.t) : inMemory :=
  {| snapshot := Some ss;
     markerIndex := wrap64 (Snapshot.Index ss + 1);
     entries := [];
     savedTo := Snapshot.Index ss |}.

(** ** The public mutating operations, as commands *)

Inductive Op : Type :=
| Merge (ents : list Entry.t)
| SavedLogTo (index term : Z)
| AppliedLogTo (index : Z)
| SavedSnapshotTo (index : Z)
| CommitUpdate (cu : UpdateCommit.t)
| Restore (ss : Snapshot.t).

Definition run (o : Op) (im : inMemory) : Result inMemory :=
  match o with
  | Merge ents => merge im ents
  | SavedLogTo index term => savedLogTo im index term
  | AppliedLogTo index => appliedLogTo im index
  | SavedSnapshotTo index => Ok (savedSnapshotTo im index)
  | CommitUpdate cu => commitUpdate im cu
  | Restore ss => Ok (restore im ss)
  end.

(** ** Well-formed values and states *)

Definition entry_u64 (e : Entry.t) : Prop :=
  u64 (Entry.Index e) ∧ u64 (Entry.Term e).

Definition snapshot_u64 (ss : Snapshot.t) : Prop :=
  u64 (Snapshot.Index ss) ∧ u64 (Snapshot.Term ss).

Definition updateCommit_u64 (cu : UpdateCommit.t) : Prop :=
  u64 (UpdateCommit.StableLogTo cu) ∧ u64 (UpdateCommit.StableLogTerm cu)
  ∧ u64 (UpdateCommit.StableSnapshotTo cu).

(** Every number of the state is a [uint64]. *)
Record typed (im : inMemory) : Prop := mkTyped {
  typed_marker : u64 (markerIndex im);
  typed_savedTo : u64 (savedTo im);
  typed_entries : Forall entry_u64 (entries im);
  typed_snapshot : ∀ ss, snapshot im = Some ss → snapshot_u64 ss
}.

(** The indices of [l] ascend by exactly one. *)
Definition contiguous (l : list Entry.t) : Prop :=
  ∀ (i : nat) a b, l !! i = Some a → l !! S i = Some b →
    Entry.Index b = Entry.Index a + 1.

(** [l] holds the indices [m, m+1, ...], one entry for each. *)
Definition covers (m : Z) (l : list Entry.t) : Prop :=
  ∀ (i : nat) e, l !! i = Some e → Entry.Index e = m + Z.of_nat i.

(** The buffer covers [[markerIndex, markerIndex + len)]. *)
Definition bufInv (im : inMemory) : Prop :=
  covers (markerIndex im) (entries im).

(** [savedTo >= markerIndex - 1], over the integers. *)
Definition savedInv (im : inMemory) : Prop :=
  markerIndex im - 1 <= savedTo im.

(** With an empty buffer, a pending snapshot sits just below the marker,
    in 64-bit arithmetic. *)
Definition snapInv (im : inMemory) : Prop :=
  entries im = [] → ∀ ss, snapshot im = Some ss →
    Snapshot.Index ss = wrap64 (markerIndex im - 1).

(** What callers pass: 64-bit numbers, and to [merge] a non-empty run of
    entries whose indices ascend by one. *)
Definition op_ok (o : Op) : Prop :=
  match o with
  | Merge ents => Forall entry_u64 ents ∧ ents ≠ [] ∧ contiguous ents
  | SavedLogTo index term => u64 index ∧ u64 term
  | AppliedLogTo index => u64 index
  | SavedSnapshotTo index => u64 index
  | CommitUpdate cu => updateCommit_u64 cu
  | Restore ss => snapshot_u64 ss
  end.

(** The states a replica can be in: created by [newInMemory], then changed
    by the public operations that return. *)
Inductive reachable : inMemory → Prop :=
| reachable_new (lastIndex : Z) :
    u64 lastIndex → reachable (newInMemory lastIndex)
| reachable_step (im im' : inMemory) (o : Op) :
    reachable im → op_ok o → run o im = Ok im' → reachable im'.

(** The four checks of [savedLogTo], as the specification words them. *)
Definition savedLogTo_accepts (im : inMemory) (index term : Z) : Prop :=
  markerIndex im <= index
  ∧ entries im ≠ []
  ∧ (∃ l, last (entries im) = Some l ∧ index <= Entry.Index l)
  ∧ (∃ e, e ∈ entries im ∧ Entry.Index e = index ∧ Entry.Term e = term).

(** ** Example windows *)

Definition ent (index term : Z) : Entry.t := Entry.mk term index [].

(** A fresh replica that has merged the entries 1 to 4. *)
Definition window_1_4 : inMemory :=
  mkInMemory None [ent 1 1; ent 2 1; ent 3 1; ent 4 1] 1 0.

(** The same after [appliedLogTo 3], nothing being saved yet. *)
Definition window_3_4 : inMemory :=
  mkInMemory None [ent 3 1; ent 4 1] 3 0.

(** A fresh replica that has merged an entry of index 0. *)
Definition window_0 : inMemory :=
  mkInMemory None [ent 0 1] 0 maxUint64.

(** A replica that has installed a snapshot of the largest index. *)
Definition window_snapshot_max : inMemory :=
  mkInMemory (Some (Snapshot.mk maxUint64 7)) [] 0 maxUint64.

(** A replica started at [2^64 - 3] that has merged the two entries of the
    largest indices. *)
Definition window_top : inMemory :=
  mkInMemory None [ent (maxUint64 - 1) 1; ent maxUint64 1]
    (maxUint64 - 1) (maxUint64 - 2).

(** ** Arithmetic of [wrap64] *)

Ltac u64_lia :=
  unfold u64, wrap64, maxUint64, len in *;
  Z.to_euclidean_division_equations; lia.

Lemma wrap64_small (x : Z) : u64 x → wrap64 x = x.
Proof. u64_lia. Qed.

Lemma wrap64_u64 (x : Z) : u64 (wrap64 x).
Proof. u64_lia. Qed.

Lemma wrap64_le (x : Z) : 0 <= x → wrap64 x <= x.
Proof. u64_lia. Qed.

Lemma wrap64_ge (x : Z) : x < 2 ^ 64 → x <= wrap64 x.
Proof. u64_lia. Qed.

(** ** Contiguous runs of entries *)

Lemma contiguousb_spec (l : list Entry.t) :
  contiguousb l = true ↔ contiguous l.
Proof.
  induction l as [|a [|b l] IH].
  - split; [|done]. intros _ i x y Hx. by destruct i.
  - split; [|done]. intros _ i x y Hx Hy. by destruct i.
  - change (contiguousb (a :: b :: l))
      with ((Entry.Index b =? Entry.Index a + 1) && contiguousb (b :: l)).
    rewrite andb_true_iff, Z.eqb_eq, IH. split.
    + intros [Hab Hl] [|i] x y Hx Hy; simplify_eq/=; [done|].
      by apply (Hl i).
    + intros H. split; [by apply (H 0%nat)|].
      intros i x y Hx Hy. by apply (H (S i)).
Qed.

Lemma covers_nil (m : Z) : covers m [].
Proof. by intros [|i] e. Qed.

Lemma covers_cons (m : Z) (e : Entry.t) (l : list Entry.t) :
  covers m (e :: l) ↔ Entry.Index e = m ∧ covers (m + 1) l.
Proof.
  split.
  - intros H. split.
    + rewrite (H 0%nat e); [lia|done].
    + intros i x Hx. rewrite (H (S i) x); [lia|done].
  - intros [He Hl] [|i] x Hx; simplify_eq/=; [lia|].
    rewrite (Hl i x Hx). lia.
Qed.

Lemma covers_contiguous (m : Z) (l : list Entry.t) :
  covers m l → contiguous l.
Proof.
  intros H i a b Ha Hb. rewrite (H _ _ Ha), (H _ _ Hb). lia.
Qed.

Lemma contiguous_covers (l : list Entry.t) (e : Entry.t) :
  contiguous l → head l = Some e → covers (Entry.Index e) l.
Proof.
  intros Hc Hh i. induction i as [|i IH]; intros x Hx.
  - rewrite head_lookup in Hh. simplify_eq. lia.
  - destruct (l !! i) as [y|] eqn:Hy.
    + rewrite (Hc i y x Hy Hx), (IH y eq_refl). lia.
    + apply lookup_ge_None_1 in Hy. apply lookup_lt_Some in Hx. lia.
Qed.

Lemma covers_app (m : Z) (l1 l2 : list Entry.t) :
  covers m (l1 ++ l2) ↔ covers m l1 ∧ covers (m + len l1) l2.
Proof.
  revert m. induction l1 as [|e l1 IH]; intros m.
  - unfold len. simpl. rewrite Z.add_0_r. split; [|tauto].
    intros H. split; [apply covers_nil|done].
  - rewrite <- app_comm_cons, !covers_cons, IH.
    replace (m + len (e :: l1)) with (m + 1 + len l1)
      by (unfold len; simpl length; lia).
    tauto.
Qed.

Lemma covers_take (m : Z) (n : nat) (l : list Entry.t) :
  covers m l → covers m (take n l).
Proof.
  intros H i e He. apply lookup_take_Some in He as [He _]. by apply H.
Qed.

Lemma covers_drop (m : Z) (n : nat) (l : list Entry.t) :
  covers m l → covers (m + Z.of_nat n) (drop n l).
Proof.
  intros H i e He. rewrite lookup_drop in He. rewrite (H _ _ He). lia.
Qed.

Lemma covers_last (m : Z) (l : list Entry.t) (e : Entry.t) :
  covers m l → last l = Some e → Entry.Index e = m + len l - 1.
Proof.
  intros H Hl. rewrite last_lookup in Hl.
  pose proof (lookup_lt_Some _ _ _ Hl). rewrite (H _ _ Hl).
  unfold len. lia.
Qed.

Lemma covers_lookup (m : Z) (l : list Entry.t) (i : Z) :
  covers m l → m <= i < m + len l →
  ∃ e, l !! Z.to_nat (i - m) = Some e ∧ Entry.Index e = i.
Proof.
  intros H Hi. unfold len in Hi.
  destruct (lookup_lt_is_Some_2 l (Z.to_nat (i - m))) as [e He]; [lia|].
  exists e. split; [done|]. rewrite (H _ _ He). lia.
Qed.

(** The entries whose index lies in [[lo, hi)] are a slice of the run. *)
Lemma covers_filter (l : list Entry.t) (m lo hi : Z) :
  covers m l →
  filter (λ e, lo <= Entry.Index e < hi) l
  = take (Z.to_nat (hi - Z.max lo m)) (drop (Z.to_nat (lo - m)) l).
Proof.
  revert m. induction l as [|e l IH]; intros m H.
  - by rewrite drop_nil, take_nil.
  - apply covers_cons in H as [He Hl]. specialize (IH _ Hl).
    destruct (decide (lo <= m)) as [Hlo|Hlo].
    + replace (Z.to_nat (lo - m)) with 0%nat by lia. rewrite drop_0.
      replace (Z.to_nat (lo - (m + 1))) with 0%nat in IH by lia.
      rewrite drop_0 in IH.
      destruct (decide (m < hi)) as [Hhi|Hhi].
      * rewrite filter_cons_True by lia. rewrite IH.
        replace (Z.to_nat (hi - Z.max lo m))
          with (S (Z.to_nat (hi - Z.max lo (m + 1)))) by lia.
        done.
      * rewrite filter_cons_False by lia. rewrite IH.
        replace (Z.to_nat (hi - Z.max lo m)) with 0%nat by lia.
        replace (Z.to_nat (hi - Z.max lo (m + 1))) with 0%nat by lia.
        by rewrite !take_0.
    + rewrite filter_cons_False by lia. rewrite IH.
      replace (Z.to_nat (lo - m)) with (S (Z.to_nat (lo - (m + 1)))) by lia.
      replace (Z.max lo (m + 1)) with (Z.max lo m) by lia.
      done.
Qed.

(** ** The operations, case by case *)

Lemma bind_Ok {A B : Type} (r : Result A) (f : A → Result B) (b : B) :
  r ≫= f = Ok b ↔ ∃ a, r = Ok a ∧ f a = Ok b.
Proof.
  destruct r as [a|]; simpl; split.
  - intros H. by exists a.
  - by intros (a' & [= <-] & H).
  - done.
  - by intros (a' & [=] & _).
Qed.

Lemma checkEntriesToAppend_Ok (l1 l2 : list Entry.t) (u : unit) :
  checkEntriesToAppend l1 l2 = Ok u ↔ contiguous (l1 ++ l2).
Proof.
  unfold checkEntriesToAppend. rewrite <- contiguousb_spec.
  destruct (contiguousb (l1 ++ l2)), u; split; done.
Qed.

Lemma checkMarkerIndex_Ok (im : inMemory) (u : unit) :
  checkMarkerIndex im = Ok u ↔
  ∀ e, head (entries im) = Some e → Entry.Index e = markerIndex im.
Proof.
  unfold checkMarkerIndex. destruct (entries im) as [|e l]; simpl.
  - destruct u. split; done.
  - destruct (Z.eqb_spec (Entry.Index e) (markerIndex im)) as [He|He];
      destruct u; split; try done.
    + by intros _ ? [= <-].
    + intros H. destruct He. by apply H.
Qed.

Lemma slice_Ok {A : Type} (s l : list A) (a b : Z) :
  slice s a b = Ok l ↔
  a <= b ∧ b <= Z.of_nat (length s)
  ∧ l = take (Z.to_nat (b - a)) (drop (Z.to_nat a) s).
Proof.
  unfold slice.
  destruct (Z.ltb_spec b a), (Z.ltb_spec (Z.of_nat (length s)) b); simpl;
    split; try (intros [=]); try (intros (? & ? & ?)); try lia.
  - subst. repeat split; lia.
  - by subst.
Qed.

Lemma slice_from_Ok {A : Type} (s l : list A) (a : Z) :
  slice_from s a = Ok l ↔
  a <= Z.of_nat (length s) ∧ l = drop (Z.to_nat a) s.
Proof.
  unfold slice_from.
  destruct (Z.ltb_spec (Z.of_nat (length s)) a); split;
    try (intros [=]); try (intros (? & ?)); try lia.
  - by subst.
  - by subst.
Qed.

Lemma index_at_Ok {A : Type} (s : list A) (i : Z) (x : A) :
  index_at s i = Ok x ↔ s !! Z.to_nat i = Some x.
Proof.
  unfold index_at. destruct (s !! Z.to_nat i); split; congruence.
Qed.

(** [getEntries] returns exactly when its three conditions hold, and then
    the positions [low - markerIndex] up to [high - markerIndex]. *)
Lemma getEntries_Ok (im : inMemory) (low high : Z) (l : list Entry.t) :
  u64 (markerIndex im) → u64 low → u64 high →
  getEntries im low high = Ok l ↔
  low <= high ∧ markerIndex im <= low ∧ high <= upperBound im
  ∧ l = take (Z.to_nat (high - low))
          (drop (Z.to_nat (low - markerIndex im)) (entries im)).
Proof.
  intros Hm Hlo Hhi. unfold getEntries.
  destruct (Z.ltb_spec high low), (Z.ltb_spec low (markerIndex im)); simpl;
    try (split; [done|lia]).
  assert (upperBound im <= markerIndex im + len (entries im))
    by (unfold upperBound; apply wrap64_le; unfold len, u64 in *; lia).
  destruct (Z.ltb_spec (upperBound im) high); [split; [done|lia]|].
  rewrite slice_Ok, !wrap64_small by (unfold u64 in *; lia).
  unfold len in *.
  replace (high - markerIndex im - (low - markerIndex im)) with (high - low)
    by lia.
  split; [intros (_ & _ & ->)|intros (_ & _ & _ & ->)]; repeat split; lia.
Qed.

Lemma getEntries_Panic (im : inMemory) (low high : Z) :
  ¬ (low <= high ∧ markerIndex im <= low ∧ high <= upperBound im) →
  getEntries im low high = Panic.
Proof.
  intros H. unfold getEntries.
  destruct (Z.ltb_spec high low), (Z.ltb_spec low (markerIndex im)); simpl;
    try done.
  destruct (Z.ltb_spec (upperBound im) high); [done|]. lia.
Qed.

(** The three branches of [merge], read off a call that returned. *)
Lemma merge_Ok (im im' : inMemory) (ents : list Entry.t) :
  u64 (markerIndex im) → Forall entry_u64 ents →
  merge im ents = Ok im' →
  ∃ e0, head ents = Some e0 ∧
    (∀ e, head (entries im') = Some e → Entry.Index e = markerIndex im') ∧
    let f := Entry.Index e0 in
    (f = upperBound im ∧ contiguous (entries im ++ ents)
       ∧ im' = set_entries (entries im ++ ents) im)
    ∨ (f ≠ upperBound im ∧ f <= markerIndex im
       ∧ im' = mkInMemory (snapshot im) ents f (wrap64 (f - 1)))
    ∨ (f ≠ upperBound im ∧ markerIndex im < f <= upperBound im
       ∧ contiguous (take (Z.to_nat (f - markerIndex im)) (entries im) ++ ents)
       ∧ im' = mkInMemory (snapshot im)
                 (take (Z.to_nat (f - markerIndex im)) (entries im) ++ ents)
                 (markerIndex im)
                 (Z.min (savedTo im) (wrap64 (f - 1)))).
Proof.
  intros Hm Hents. destruct im as [ss es m sv]. unfold merge.
  destruct ents as [|e0 rest]; [done|]. simpl in Hm.
  apply Forall_cons in Hents as [[He0 _] _].
  change (index_at (e0 :: rest) 0) with (Ok e0). simpl mbind at 1.
  unfold resizeEntrySlice. simpl app at 1.
  change (set_entries es (mkInMemory ss es m sv)) with (mkInMemory ss es m sv).
  intros H. apply bind_Ok in H as (im1 & Hbr & H).
  apply bind_Ok in H as ([] & Hchk & [= <-]).
  exists e0. split; [done|]. split; [exact (proj1 (checkMarkerIndex_Ok _ _) Hchk)|].
  clear Hchk. simpl. simpl in Hbr.
  destruct (Z.eqb_spec (Entry.Index e0) (upperBound (mkInMemory ss es m sv)))
    as [Hf|Hf].
  - left. apply bind_Ok in Hbr as ([] & Hc & [= <-]).
    apply checkEntriesToAppend_Ok in Hc. done.
  - right. destruct (Z.leb_spec (Entry.Index e0) m) as [Hle|Hlt].
    + left. by injection Hbr as <-.
    + right. apply bind_Ok in Hbr as (existing & Hg & Hbr).
      apply bind_Ok in Hbr as ([] & Hc & [= <-]).
      apply getEntries_Ok in Hg as (_ & _ & Hub & ->); [|done..].
      simpl in *. replace (Z.to_nat (m - m)) with 0%nat in * by lia.
      rewrite drop_0 in *. apply checkEntriesToAppend_Ok in Hc.
      repeat split; try done; lia.
Qed.

Lemma savedLogTo_Ok (im im' : inMemory) (index term : Z) :
  savedLogTo im index term = Ok im' →
  im' = im
  ∨ (markerIndex im <= index ∧ entries im ≠ []
     ∧ im' = set_savedTo index im).
Proof.
  unfold savedLogTo.
  destruct (Z.ltb_spec index (markerIndex im)) as [?|Hge];
    [by intros [= <-]; left|].
  destruct (last (entries im)) as [l|] eqn:Hl; [|by intros [= <-]; left].
  destruct (Entry.Index l <? index); [by intros [= <-]; left|].
  intros H. apply bind_Ok in H as (e & _ & H).
  destruct (negb (term =? Entry.Term e)); injection H as <-; [by left|].
  right. repeat split; [done|]. intros Hnil. by rewrite Hnil in Hl.
Qed.

Lemma appliedLogTo_Ok (im im' : inMemory) (index : Z) :
  appliedLogTo im index = Ok im' →
  im' = im
  ∨ (markerIndex im <= index
     ∧ wrap64 (index - markerIndex im) <= len (entries im)
     ∧ im' = mkInMemory (snapshot im)
               (drop (Z.to_nat (wrap64 (index - markerIndex im))) (entries im))
               index (savedTo im)).
Proof.
  unfold appliedLogTo.
  destruct (Z.ltb_spec index (markerIndex im)) as [?|Hge];
    [by intros [= <-]; left|].
  destruct (last (entries im)) as [l|]; [|by intros [= <-]; left].
  destruct (Entry.Index l <? index); [by intros [= <-]; left|].
  intros H. apply bind_Ok in H as (rest & Hs & H).
  apply bind_Ok in H as ([] & _ & [= <-]).
  apply slice_from_Ok in Hs as [Hlen ->]. right. by repeat split.
Qed.

Lemma savedSnapshotTo_cases (im : inMemory) (index : Z) :
  savedSnapshotTo im index = im
  ∨ savedSnapshotTo im index = set_snapshot None im.
Proof.
  unfold savedSnapshotTo, getSnapshotIndex.
  destruct (snapshot im) as [ss|]; simpl; [|by left].
  destruct (Snapshot.Index ss =? index); simpl; auto.
Qed.

Lemma commitUpdate_Ok (im im' : inMemory) (cu : UpdateCommit.t) :
  commitUpdate im cu = Ok im' →
  ∃ im1, (im1 = im
          ∨ (markerIndex im <= UpdateCommit.StableLogTo cu
             ∧ entries im ≠ []
             ∧ im1 = set_savedTo (UpdateCommit.StableLogTo cu) im))
         ∧ (im' = im1 ∨ im' = set_snapshot None im1).
Proof.
  unfold commitUpdate. intros H. apply bind_Ok in H as (im1 & H1 & [= <-]).
  exists im1. split.
  - destruct (0 <? UpdateCommit.StableLogTo cu).
    + by apply savedLogTo_Ok in H1.
    + injection H1 as <-. by left.
  - destruct (0 <? UpdateCommit.StableSnapshotTo cu); [|by left].
    destruct (savedSnapshotTo_cases im1 (UpdateCommit.StableSnapshotTo cu))
      as [-> | ->]; auto.
Qed.

(** Under the buffer invariant the guards of [savedLogTo] and of
    [appliedLogTo] keep the position [index - markerIndex] inside the
    buffer. *)
Lemma covers_position (im : inMemory) (index : Z) (l : Entry.t) :
  bufInv im → u64 (markerIndex im) → u64 index →
  markerIndex im <= index → last (entries im) = Some l →
  index <= Entry.Index l →
  wrap64 (index - markerIndex im) = index - markerIndex im
  ∧ ∃ e, entries im !! Z.to_nat (index - markerIndex im) = Some e
         ∧ Entry.Index e = index.
Proof.
  intros Hb Hm Hi Hle Hl Hlast.
  rewrite (covers_last _ _ _ Hb Hl) in Hlast.
  split; [apply wrap64_small; unfold u64 in *; lia|].
  apply covers_lookup; [done|lia].
Qed.

Lemma savedLogTo_spec (im : inMemory) (index term : Z) :
  bufInv im → u64 (markerIndex im) → u64 index →
  savedLogTo im index term
  = Ok (match entries im !! Z.to_nat (index - markerIndex im) with
        | Some e =>
            if (markerIndex im <=? index) && (Entry.Term e =? term)
            then set_savedTo index im else im
        | None => im
        end).
Proof.
  intros Hb Hm Hi. unfold savedLogTo.
  destruct (Z.ltb_spec index (markerIndex im)) as [Hlt|Hle].
  { destruct (Z.leb_spec (markerIndex im) index); [lia|].
    simpl. by destruct (entries im !! _). }
  destruct (last (entries im)) as [l|] eqn:Hl.
  - destruct (Z.ltb_spec (Entry.Index l) index) as [Hgt|Hlast].
    + rewrite (covers_last _ _ _ Hb Hl) in Hgt.
      rewrite lookup_ge_None_2; [done|]. unfold len in Hgt. lia.
    + destruct (covers_position im index l) as (-> & e & He & _); try done.
      unfold index_at. rewrite He. simpl.
      destruct (Z.leb_spec (markerIndex im) index); [|lia]. simpl.
      rewrite (Z.eqb_sym term). by destruct (Entry.Term e =? term).
  - apply last_None in Hl. by rewrite Hl.
Qed.

Lemma appliedLogTo_spec (im : inMemory) (index : Z) :
  bufInv im → u64 (markerIndex im) → u64 index →
  appliedLogTo im index
  = Ok (if decide (markerIndex im <= index < markerIndex im + len (entries im))
        then mkInMemory (snapshot im)
               (drop (Z.to_nat (index - markerIndex im)) (entries im))
               index (savedTo im)
        else im).
Proof.
  intros Hb Hm Hi. unfold appliedLogTo.
  destruct (Z.ltb_spec index (markerIndex im)) as [Hlt|Hle].
  { by rewrite decide_False by lia. }
  destruct (last (entries im)) as [l|] eqn:Hl.
  - destruct (Z.ltb_spec (Entry.Index l) index) as [Hgt|Hlast].
    + rewrite (covers_last _ _ _ Hb Hl) in Hgt. by rewrite decide_False by lia.
    + destruct (covers_position im index l) as (-> & e & He & Hidx); try done.
      pose proof (lookup_lt_Some _ _ _ He) as Hlt.
      rewrite decide_True by (unfold len; lia).
      unfold slice_from.
      destruct (Z.ltb_spec (Z.of_nat (length (entries im)))
                  (index - markerIndex im)); [lia|].
      simpl. unfold checkMarkerIndex, resizeEntrySlice. simpl.
      rewrite <- (take_drop_middle _ _ _ He) at 1.
      rewrite drop_app_length', (proj2 (Z.eqb_eq _ _) Hidx);
        [done|rewrite length_take; lia].
  - apply last_None in Hl. rewrite Hl. unfold len. simpl.
    by rewrite decide_False by lia.
Qed.

(** ** Invariants of the reachable states *)

Lemma typed_newInMemory (lastIndex : Z) :
  u64 lastIndex → typed (newInMemory lastIndex).
Proof.
  intros H. split; simpl; [apply wrap64_u64|done|constructor|done].
Qed.

Lemma bufInv_newInMemory (lastIndex : Z) : bufInv (newInMemory lastIndex).
Proof. apply covers_nil. Qed.

Lemma typed_run (im im' : inMemory) (o : Op) :
  typed im → op_ok o → run o im = Ok im' → typed im'.
Proof.
  intros [Hm Hs He Hss] Hok Hrun. destruct o as [ents|i t|i|i|cu|ss]; simpl in *.
  - destruct Hok as (Hents & _ & _).
    pose proof Hents as Hents'.
    apply (merge_Ok _ _ _ Hm) in Hrun as (e0 & Hh & _ & Hcases); [|done].
    assert (entry_u64 e0) as [Hf _].
    { destruct ents; simplify_eq/=. by apply Forall_cons in Hents' as [? _]. }
    pose proof (wrap64_u64 (Entry.Index e0 - 1)) as Hw.
    destruct Hcases as [(_ & _ & ->)|[(_ & _ & ->)|(_ & _ & _ & ->)]].
    + split; simpl; try done. by apply Forall_app.
    + by split.
    + split; simpl; try done.
      * unfold u64 in *. lia.
      * apply Forall_app. split; [by apply Forall_take|done].
  - destruct Hok as [Hi _].
    apply savedLogTo_Ok in Hrun as [->|(_ & _ & ->)]; by split.
  - apply appliedLogTo_Ok in Hrun as [->|(_ & _ & ->)]; split; simpl;
      try done. by apply Forall_drop.
  - injection Hrun as <-.
    destruct (savedSnapshotTo_cases im i) as [-> | ->]; by split.
  - destruct Hok as (Hi & _ & _).
    apply commitUpdate_Ok in Hrun as (im1 & [->|(_ & _ & ->)] & [->| ->]);
      by split.
  - injection Hrun as <-. destruct Hok as [Hi Ht].
    split; simpl; [apply wrap64_u64|done|constructor|by intros ? [= <-]].
Qed.

Lemma bufInv_run (im im' : inMemory) (o : Op) :
  typed im → bufInv im → op_ok o → run o im = Ok im' → bufInv im'.
Proof.
  intros [Hm Hs He Hss] Hb Hok Hrun. unfold bufInv in *.
  destruct o as [ents|i t|i|i|cu|ss]; simpl in *.
  - destruct Hok as (Hents & _ & Hc).
    apply (merge_Ok _ _ _ Hm) in Hrun as (e0 & Hh & Hhd & Hcases); [|done].
    assert (contiguous (entries im')) as Hc'.
    { by destruct Hcases as [(_ & ? & ->)|[(_ & _ & ->)|(_ & _ & ? & ->)]]. }
    destruct (head (entries im')) as [e|] eqn:Hhe.
    + rewrite <- (Hhd e eq_refl). by apply contiguous_covers.
    + apply head_None in Hhe. rewrite Hhe. apply covers_nil.
  - by apply savedLogTo_Ok in Hrun as [->|(_ & _ & ->)].
  - destruct Hok. rewrite appliedLogTo_spec in Hrun by done.
    injection Hrun as <-. case_decide as Hi; [|done]. simpl.
    replace i with (markerIndex im + Z.of_nat (Z.to_nat (i - markerIndex im)))
      at 1 by lia.
    by apply covers_drop.
  - injection Hrun as <-.
    by destruct (savedSnapshotTo_cases im i) as [-> | ->].
  - by apply commitUpdate_Ok in Hrun as (im1 & [->|(_ & _ & ->)] & [->| ->]).
  - injection Hrun as <-. apply covers_nil.
Qed.

Lemma snapInv_run (im im' : inMemory) (o : Op) :
  typed im → bufInv im → snapInv im → op_ok o → run o im = Ok im' →
  snapInv im'.
Proof.
  intros [Hm Hs He Hss] Hb Hsn Hok Hrun. unfold snapInv in *.
  destruct o as [ents|i t|i|i|cu|ss]; simpl in *.
  - destruct Hok as (Hents & _ & Hc).
    apply (merge_Ok _ _ _ Hm) in Hrun as (e0 & Hh & _ & Hcases); [|done].
    destruct ents as [|e rest]; [done|].
    destruct Hcases as [(_ & _ & ->)|[(_ & _ & ->)|(_ & _ & _ & ->)]];
      simpl; intros Hnil; try done;
      by apply app_eq_nil in Hnil as [_ ?].
  - by apply savedLogTo_Ok in Hrun as [->|(_ & _ & ->)].
  - destruct Hok. rewrite appliedLogTo_spec in Hrun by done.
    injection Hrun as <-. case_decide as Hi; [|done]. simpl.
    intros Hnil. apply (f_equal length) in Hnil.
    rewrite length_drop in Hnil. unfold len in Hi. simpl in Hnil. lia.
  - injection Hrun as <-.
    by destruct (savedSnapshotTo_cases im i) as [-> | ->].
  - by apply commitUpdate_Ok in Hrun as (im1 & [->|(_ & _ & ->)] & [->| ->]).
  - injection Hrun as <-. destruct Hok as [Hi _]. simpl.
    intros _ ? [= <-]. u64_lia.
Qed.

Lemma reachable_invariants (im : inMemory) :
  reachable im → typed im ∧ bufInv im ∧ snapInv im.
Proof.
  induction 1 as [lastIndex Hl|im im' o _ (Ht & Hb & Hs) Hok Hrun].
  - split; [by apply typed_newInMemory|].
    split; [apply bufInv_newInMemory|]. by intros _ ss.
  - split; [by eapply typed_run|].
    split; [by eapply bufInv_run|by eapply snapInv_run].
Qed.

(** An empty reachable buffer has nothing saved above the marker:
    [savedTo] is [markerIndex - 1] in 64-bit arithmetic. *)
Lemma reachable_empty_savedTo (im : inMemory) :
  reachable im → entries im = [] → savedTo im = wrap64 (markerIndex im - 1).
Proof.
  induction 1 as [lastIndex Hl|im im' o Hr IH Hok Hrun]; simpl.
  { intros _. u64_lia. }
  destruct (reachable_invariants im Hr) as ([Hm _ _ _] & Hb & _).
  destruct o as [ents|i t|i|i|cu|ss]; simpl in *.
  - destruct Hok as (Hents & _ & _).
    apply (merge_Ok _ _ _ Hm) in Hrun as (e0 & Hh & _ & Hcases); [|done].
    destruct ents as [|e rest]; [done|].
    destruct Hcases as [(_ & _ & ->)|[(_ & _ & ->)|(_ & _ & _ & ->)]];
      simpl; intros Hnil; try done;
      by apply app_eq_nil in Hnil as [_ ?].
  - by apply savedLogTo_Ok in Hrun as [->|(_ & ? & ->)].
  - destruct Hok. rewrite appliedLogTo_spec in Hrun by done.
    injection Hrun as <-. case_decide as Hi; [|done]. simpl.
    intros Hnil. apply (f_equal length) in Hnil.
    rewrite length_drop in Hnil. unfold len in Hi. simpl in Hnil. lia.
  - injection Hrun as <-.
    by destruct (savedSnapshotTo_cases im i) as [-> | ->].
  - by apply commitUpdate_Ok in Hrun as (im1 & [->|(_ & ? & ->)] & [->| ->]).
  - injection Hrun as <-. destruct Hok as [Hi _]. simpl. intros _. u64_lia.
Qed.

(** Apart from a snapshot of index [2^64 - 1], whose successor wraps to
    0, a snapshot pending over an empty reachable buffer lies below the
    marker. *)
Lemma reachable_snapshot_below_marker (im : inMemory) (ss : Snapshot.t) :
  reachable im → entries im = [] → snapshot im = Some ss →
  Snapshot.Index ss ≠ maxUint64 → Snapshot.Index ss < markerIndex im.
Proof.
  intros Hr Hnil Hss Hmax.
  destruct (reachable_invariants im Hr) as ([Hm _ _ Hu] & _ & Hsn).
  specialize (Hsn Hnil ss Hss). destruct (Hu ss Hss) as [Hi _].
  clear Hu Hss. u64_lia.
Qed.

(** ** The example windows are reachable *)

Lemma u64_small (x : Z) : (0 <=? x) && (x <? 2 ^ 64) = true → u64 x.
Proof. unfold u64. lia. Qed.

Ltac op_ok_tac :=
  unfold op_ok, updateCommit_u64, snapshot_u64; simpl;
  repeat match goal with
    | |- _ ∧ _ => split
    | |- Forall _ (_ :: _) => apply Forall_cons
    | |- Forall _ [] => by constructor
    | |- entry_u64 _ => split
    | |- u64 _ => by apply u64_small
    | |- contiguous _ => by apply contiguousb_spec
    | |- _ ≠ _ => done
    end.

Lemma reachable_fresh : reachable (newInMemory 0).
Proof. apply reachable_new. by apply u64_small. Qed.

Lemma reachable_window_1_4 : reachable window_1_4.
Proof.
  apply (reachable_step (newInMemory 0) _
           (Merge [ent 1 1; ent 2 1; ent 3 1; ent 4 1]));
    [apply reachable_fresh|op_ok_tac|done].
Qed.

Lemma reachable_window_3_4 : reachable window_3_4.
Proof.
  apply (reachable_step window_1_4 _ (AppliedLogTo 3));
    [apply reachable_window_1_4|op_ok_tac|done].
Qed.

Lemma reachable_window_0 : reachable window_0.
Proof.
  apply (reachable_step (newInMemory 0) _ (Merge [ent 0 1]));
    [apply reachable_fresh|op_ok_tac|done].
Qed.

Lemma reachable_window_snapshot_max : reachable window_snapshot_max.
Proof.
  apply (reachable_step (newInMemory 0) _ (Restore (Snapshot.mk maxUint64 7)));
    [apply reachable_fresh|op_ok_tac|done].
Qed.

Lemma reachable_window_top : reachable window_top.
Proof.
  apply (reachable_step (newInMemory (maxUint64 - 2)) _
           (Merge [ent (maxUint64 - 1) 1; ent maxUint64 1]));
    [apply reachable_new; by apply u64_small|op_ok_tac|by vm_compute].
Qed.

(** ** C1: the invariant [savedTo >= markerIndex - 1] *)

(** [appliedLogTo] moves the marker and leaves [savedTo] where it is: on
    the reachable window holding 1 to 4 with nothing saved, [appliedLogTo 3]
    returns a window with [markerIndex = 3] and [savedTo = 0]. *)
Lemma appliedLogTo_breaks_savedInv :
  reachable window_1_4 ∧ op_ok (AppliedLogTo 3) ∧ savedInv window_1_4
  ∧ run (AppliedLogTo 3) window_1_4 = Ok window_3_4
  ∧ ¬ savedInv window_3_4.
Proof.
  split; [apply reachable_window_1_4|]. split; [op_ok_tac|].
  split; [unfold savedInv; simpl; lia|]. split; [done|].
  unfold savedInv. simpl. lia.
Qed.

(** C1 (amended).  On every reachable window the invariant
    [savedTo >= markerIndex - 1], read over the integers, is kept by
    [merge], [savedLogTo], [savedSnapshotTo], [commitUpdate] and [restore]
    whenever they return; [appliedLogTo index] keeps it if and only if it
    changes nothing or [index <= savedTo + 1]. *)
Theorem savedInv_preserved (im im' : inMemory) (o : Op) :
  reachable im → op_ok o → savedInv im → run o im = Ok im' →
  match o with
  | AppliedLogTo index =>
      savedInv im' ↔ (im' = im ∨ index <= savedTo im + 1)
  | _ => savedInv im'
  end.
Proof.
  intros Hr Hok Hinv Hrun.
  destruct (reachable_invariants im Hr) as ([Hm Hs _ _] & _ & _).
  unfold savedInv in *.
  destruct o as [ents|i t|i|i|cu|ss]; simpl in *.
  - destruct Hok as (Hents & _ & _).
    apply (merge_Ok _ _ _ Hm) in Hrun as (e0 & Hh & _ & Hcases); [|done].
    assert (u64 (Entry.Index e0)) as Hf.
    { destruct ents; simplify_eq/=. by apply Forall_cons in Hents as [[? _] _]. }
    pose proof (wrap64_ge (Entry.Index e0 - 1)) as Hw.
    destruct Hcases as [(_ & _ & ->)|[(_ & _ & ->)|(_ & ? & _ & ->)]];
      simpl; unfold u64 in *; lia.
  - apply savedLogTo_Ok in Hrun as [->|(? & _ & ->)]; simpl; lia.
  - apply appliedLogTo_Ok in Hrun as [->|(_ & _ & ->)]; simpl.
    + split; [by left|done].
    + split; [intros ?; right; lia|].
      intros [Heq|Hi]; [|lia].
      apply (f_equal markerIndex) in Heq. simpl in Heq. lia.
  - injection Hrun as <-.
    by destruct (savedSnapshotTo_cases im i) as [-> | ->].
  - apply commitUpdate_Ok in Hrun as (im1 & [->|(? & _ & ->)] & [->| ->]);
      simpl; lia.
  - injection Hrun as <-. simpl. destruct Hok as [Hi _].
    pose proof (wrap64_le (Snapshot.Index ss + 1)). unfold u64 in *. lia.
Qed.

Lemma savedInv_preserved_witness :
  savedInv (mkInMemory None [ent 3 1; ent 4 1] 3 2).
Proof.
  destruct (savedInv_preserved
              (mkInMemory None [ent 1 1; ent 2 1; ent 3 1; ent 4 1] 1 2)
              (mkInMemory None [ent 3 1; ent 4 1] 3 2)
              (AppliedLogTo 3)) as [_ Hkeeps].
  - apply (reachable_step window_1_4 _ (SavedLogTo 2 1));
      [apply reachable_window_1_4|op_ok_tac|reflexivity].
  - op_ok_tac.
  - unfold savedInv. simpl. lia.
  - reflexivity.
  - apply Hkeeps. right. simpl. lia.
Defined.

(** ** C5: the buffer starts at the marker and is contiguous *)

(** C5.  Whenever a public operation ([merge] of a non-empty contiguous
    run, [appliedLogTo], [restore], [savedLogTo], [savedSnapshotTo],
    [commitUpdate]) returns on a reachable window, the first buffered entry,
    if there is one, has index [markerIndex], and the buffered indices
    ascend by exactly one. *)
Theorem buffer_invariant_after_operation (im im' : inMemory) (o : Op) :
  reachable im → op_ok o → run o im = Ok im' →
  (∀ e, head (entries im') = Some e → Entry.Index e = markerIndex im')
  ∧ contiguous (entries im').
Proof.
  intros Hr Hok Hrun.
  destruct (reachable_invariants im Hr) as (Ht & Hb & _).
  pose proof (bufInv_run _ _ _ Ht Hb Hok Hrun) as Hb'. split.
  - intros e He. rewrite head_lookup in He. rewrite (Hb' _ _ He). lia.
  - by eapply covers_contiguous.
Qed.

Lemma buffer_invariant_after_operation_witness :
  (∀ e, head (entries window_3_4) = Some e
        → Entry.Index e = markerIndex window_3_4)
  ∧ contiguous (entries window_3_4).
Proof.
  apply (buffer_invariant_after_operation window_1_4 _ (AppliedLogTo 3)).
  - apply reachable_window_1_4.
  - op_ok_tac.
  - reflexivity.
Defined.

(** ** C6: [savedLogTo] *)

(** C6.  On a window whose buffer covers [[markerIndex, markerIndex+len)],
    [savedLogTo index term] returns the window with [savedTo] set to [index]
    and every other field as it was when [index >= markerIndex], the buffer
    is not empty, [index] is at most the last buffered index and the
    buffered entry of that index has the given term; when one of these
    fails it returns the window as it was.  It never panics. *)
Theorem savedLogTo_sets_savedTo_iff_accepted
    (im : inMemory) (index term : Z) :
  typed im → bufInv im → u64 index →
  (savedLogTo_accepts im index term →
     savedLogTo im index term
     = Ok (mkInMemory (snapshot im) (entries im) (markerIndex im) index))
  ∧ (¬ savedLogTo_accepts im index term →
     savedLogTo im index term = Ok im).
Proof.
  intros [Hm _ _ _] Hb Hi. rewrite savedLogTo_spec by done. split.
  - intros (Hle & _ & _ & e & He & Hidx & Hterm).
    apply list_elem_of_lookup_1 in He as [i He].
    pose proof (Hb _ _ He) as Hpos.
    replace (Z.to_nat (index - markerIndex im)) with i by lia.
    rewrite He.
    destruct (Z.leb_spec (markerIndex im) index); [|lia].
    by rewrite (proj2 (Z.eqb_eq _ _) Hterm).
  - intros Hno.
    destruct (entries im !! Z.to_nat (index - markerIndex im)) as [e|] eqn:He;
      [|done].
    destruct (Z.leb_spec (markerIndex im) index) as [Hle|]; [|done].
    destruct (Z.eqb_spec (Entry.Term e) term) as [Hterm|]; [|done].
    destruct Hno. pose proof (Hb _ _ He) as Hpos.
    pose proof (lookup_lt_Some _ _ _ He) as Hlt.
    split; [done|]. split; [by intros Hnil; rewrite Hnil in He|].
    split.
    + destruct (last (entries im)) as [l|] eqn:Hl.
      * exists l. split; [done|].
        rewrite (covers_last _ _ _ Hb Hl). unfold len. lia.
      * apply last_None in Hl. by rewrite Hl in He.
    + exists e. split; [by eapply list_elem_of_lookup_2|]. split; [lia|done].
Qed.

Lemma savedLogTo_sets_savedTo_iff_accepted_witness :
  savedLogTo window_1_4 2 1
  = Ok (mkInMemory None [ent 1 1; ent 2 1; ent 3 1; ent 4 1] 1 2)
  ∧ savedLogTo window_1_4 2 9
    = Ok (mkInMemory None [ent 1 1; ent 2 1; ent 3 1; ent 4 1] 1 0).
Proof.
  pose proof (reachable_invariants _ reachable_window_1_4) as (Ht & Hb & _).
  split.
  - apply (savedLogTo_sets_savedTo_iff_accepted window_1_4 2 1);
      [done|done|by apply u64_small|].
    split; [simpl; lia|]. split; [done|]. split.
    + exists (ent 4 1). split; [done|simpl; lia].
    + exists (ent 2 1). split; [|done].
      by apply (list_elem_of_lookup_2 _ 1%nat).
  - apply (savedLogTo_sets_savedTo_iff_accepted window_1_4 2 9);
      [done|done|by apply u64_small|].
    intros (_ & _ & _ & e & He & Hi & Hterm).
    apply list_elem_of_lookup_1 in He as [i He].
    by destruct i as [|[|[|[|i]]]]; simplify_eq/=.
Defined.

Lemma covers_filter_below (l : list Entry.t) (m hi : Z) :
  covers m l →
  filter (λ e, Entry.Index e < hi) l = take (Z.to_nat (hi - m)) l.
Proof.
  revert m. induction l as [|e l IH]; intros m H; [by rewrite take_nil|].
  apply covers_cons in H as [He Hl].
  destruct (decide (m < hi)) as [Hhi|Hhi].
  - rewrite filter_cons_True, (IH _ Hl) by lia.
    by replace (Z.to_nat (hi - m)) with (S (Z.to_nat (hi - (m + 1)))) by lia.
  - rewrite filter_cons_False, (IH _ Hl) by lia.
    replace (Z.to_nat (hi - m)) with 0%nat by lia.
    replace (Z.to_nat (hi - (m + 1))) with 0%nat by lia.
    by rewrite take_0.
Qed.

(** Without overflow the 64-bit [upperBound] is the sum itself. *)
Lemma upperBound_small (im : inMemory) :
  u64 (markerIndex im + len (entries im)) →
  upperBound im = markerIndex im + len (entries im).
Proof. apply wrap64_small. Qed.

Lemma upperBound_le (im : inMemory) :
  typed im → upperBound im <= markerIndex im + len (entries im).
Proof.
  intros [Hm _ _ _]. apply wrap64_le. unfold len, u64 in *. lia.
Qed.

(** ** C9: [getEntries] *)

(** On the reachable window that holds the entries of the two largest
    indices, [markerIndex + len(entries)] is [2^64] and the 64-bit
    [upperBound] is 0: the range from [2^64 - 2] to [2^64 - 1] meets the
    three conditions over the integers, and [getEntries] panics. *)
Lemma getEntries_panics_at_top :
  reachable window_top
  ∧ maxUint64 - 1 <= maxUint64
  ∧ markerIndex window_top <= maxUint64 - 1
  ∧ maxUint64 <= markerIndex window_top + len (entries window_top)
  ∧ getEntries window_top (maxUint64 - 1) maxUint64 = Panic.
Proof.
  split; [apply reachable_window_top|]. by vm_compute.
Qed.

(** C9 (amended).  On a window whose buffer covers
    [[markerIndex, markerIndex+len)] with [markerIndex + len(entries)]
    below [2^64], [getEntries low high] returns exactly the buffered
    entries with index in [[low, high)] when [low <= high],
    [low >= markerIndex] and [high <= markerIndex + len(entries)]; on every
    window, when one of the three fails it panics.  The method is a
    function of the window and has no window to return: it assigns no
    field. *)
Theorem getEntries_range (im : inMemory) (low high : Z) :
  typed im → bufInv im → u64 low → u64 high →
  (markerIndex im + len (entries im) < 2 ^ 64 →
   low <= high ∧ markerIndex im <= low
   ∧ high <= markerIndex im + len (entries im) →
     getEntries im low high
     = Ok (filter (λ e, low <= Entry.Index e < high) (entries im)))
  ∧ (¬ (low <= high ∧ markerIndex im <= low
        ∧ high <= markerIndex im + len (entries im)) →
     getEntries im low high = Panic).
Proof.
  intros Ht Hb Hlo Hhi. pose proof (upperBound_le im Ht) as Hub.
  destruct Ht as [Hm _ _ _]. split.
  - intros Hsmall (Hle & Hlow & Hhigh). apply getEntries_Ok; try done.
    rewrite upperBound_small by (unfold len, u64 in *; lia).
    repeat split; try done.
    rewrite (covers_filter _ _ low high Hb).
    by replace (Z.max low (markerIndex im)) with low by lia.
  - intros Hno. apply getEntries_Panic. intros (? & ? & ?).
    apply Hno. repeat split; lia.
Qed.

Lemma getEntries_range_witness :
  getEntries window_1_4 2 4 = Ok [ent 2 1; ent 3 1]
  ∧ getEntries window_1_4 2 6 = Panic.
Proof.
  pose proof (reachable_invariants _ reachable_window_1_4) as (Ht & Hb & _).
  split.
  - apply (getEntries_range window_1_4 2 4);
      [done|done|by apply u64_small|by apply u64_small|by vm_compute|].
    vm_compute. repeat split; discriminate.
  - apply (getEntries_range window_1_4 2 6);
      [done|done|by apply u64_small|by apply u64_small|].
    vm_compute. intros (_ & _ & H). by apply H.
Defined.

(** ** C3: [merge], partial overlap *)

(** [merge] reaches [getEntries] with the 64-bit [upperBound]. *)
Lemma merge_overlap_upperBound
    (im : inMemory) (ents : list Entry.t) (e0 : Entry.t) :
  typed im → bufInv im →
  Forall entry_u64 ents → contiguous ents → head ents = Some e0 →
  markerIndex im < Entry.Index e0 < upperBound im →
  merge im ents
  = Ok (mkInMemory (snapshot im)
          (filter (λ e, Entry.Index e < Entry.Index e0) (entries im) ++ ents)
          (markerIndex im)
          (Z.min (savedTo im) (Entry.Index e0 - 1))).
Proof.
  intros Ht Hb Hents Hc Hh [Hlo Hhi].
  pose proof (upperBound_le im Ht) as Hub. destruct Ht as [Hm _ _ _].
  destruct ents as [|e rest]; simplify_eq/=.
  apply Forall_cons in Hents as [[Hf _] _].
  rewrite (covers_filter_below _ _ (Entry.Index e0) Hb).
  set (k := Z.to_nat (Entry.Index e0 - markerIndex im)).
  assert (covers (markerIndex im) (take k (entries im) ++ e0 :: rest)) as Hcov.
  { apply covers_app. split; [by apply covers_take|].
    replace (markerIndex im + len (take k (entries im)))
      with (Entry.Index e0)
      by (unfold len in *; rewrite length_take; lia).
    by apply contiguous_covers. }
  destruct im as [ss es m sv]. unfold merge, resizeEntrySlice. simpl in *.
  change (set_entries es (mkInMemory ss es m sv)) with (mkInMemory ss es m sv).
  destruct (Z.eqb_spec (Entry.Index e0) (upperBound (mkInMemory ss es m sv)));
    [lia|].
  destruct (Z.leb_spec (Entry.Index e0) m); [lia|].
  rewrite (proj2 (getEntries_Ok (mkInMemory ss es m sv) m (Entry.Index e0)
                    (take k es) Hm Hm Hf)).
  2:{ simpl. repeat split; try lia.
      by replace (Z.to_nat (m - m)) with 0%nat by lia. }
  simpl.
  rewrite (proj2 (checkEntriesToAppend_Ok (take k es) (e0 :: rest) ()))
    by (by eapply covers_contiguous).
  simpl. rewrite (wrap64_small (Entry.Index e0 - 1)) by (unfold u64 in *; lia).
  rewrite (proj2 (checkMarkerIndex_Ok _ ())); [done|].
  simpl. intros x Hx. rewrite head_lookup in Hx.
  rewrite (Hcov _ _ Hx). lia.
Qed.

(** On the reachable window that holds the entries of indices [2^64 - 2]
    and [2^64 - 1], an input starting at [2^64 - 1] lies strictly between
    [markerIndex] and [markerIndex + len(entries) = 2^64]; the 64-bit
    [upperBound] is 0 and [merge] panics in [getEntries]. *)
Lemma merge_overlap_panics_at_top :
  reachable window_top
  ∧ op_ok (Merge [ent maxUint64 2])
  ∧ markerIndex window_top < Entry.Index (ent maxUint64 2)
  ∧ Entry.Index (ent maxUint64 2)
    < markerIndex window_top + len (entries window_top)
  ∧ merge window_top [ent maxUint64 2] = Panic.
Proof.
  split; [apply reachable_window_top|]. split; [op_ok_tac|]. by vm_compute.
Qed.

(** C3 (amended).  On a window whose buffer covers
    [[markerIndex, markerIndex+len)] with [markerIndex + len(entries)]
    below [2^64], merging a non-empty contiguous run whose first index [f]
    lies strictly between [markerIndex] and [markerIndex + len(entries)]
    returns the window with the buffered entries of index below [f]
    followed by the run, the same [markerIndex] and pending snapshot, and
    [savedTo] lowered to [min savedTo (f - 1)]. *)
Theorem merge_partial_overlap
    (im : inMemory) (ents : list Entry.t) (e0 : Entry.t) :
  typed im → bufInv im →
  Forall entry_u64 ents → contiguous ents → head ents = Some e0 →
  markerIndex im + len (entries im) < 2 ^ 64 →
  markerIndex im < Entry.Index e0 < markerIndex im + len (entries im) →
  merge im ents
  = Ok (mkInMemory (snapshot im)
          (filter (λ e, Entry.Index e < Entry.Index e0) (entries im) ++ ents)
          (markerIndex im)
          (Z.min (savedTo im) (Entry.Index e0 - 1))).
Proof.
  intros Ht Hb Hents Hc Hh Hsmall Hf.
  apply merge_overlap_upperBound; try done.
  rewrite upperBound_small; [done|].
  destruct Ht as [Hm _ _ _]. unfold len, u64 in *. lia.
Qed.

Lemma merge_partial_overlap_witness :
  merge (mkInMemory None
           [ent 1 1; ent 2 1; ent 3 1; ent 4 1; ent 5 1; ent 6 1] 1 5)
        [ent 3 2; ent 4 2; ent 5 2]
  = Ok (mkInMemory None [ent 1 1; ent 2 1; ent 3 2; ent 4 2; ent 5 2] 1 2).
Proof.
  apply (merge_partial_overlap
           (mkInMemory None
              [ent 1 1; ent 2 1; ent 3 1; ent 4 1; ent 5 1; ent 6 1] 1 5)
           [ent 3 2; ent 4 2; ent 5 2] (ent 3 2)).
  - split; simpl; [by apply u64_small|by apply u64_small|op_ok_tac|done].
  - apply (contiguous_covers _ (ent 1 1)); [by apply contiguousb_spec|done].
  - op_ok_tac.
  - by apply contiguousb_spec.
  - reflexivity.
  - by vm_compute.
  - vm_compute. split; reflexivity.
Defined.

(** ** C4: [merge], full replace *)

(** The new [savedTo] can exceed the old one.  After [appliedLogTo 3] with
    nothing saved the window holds 3 and 4 with [savedTo = 0]; merging an
    entry of index 2 sets [savedTo] to 1.  And on a fresh replica
    ([markerIndex = 1], [savedTo = 0]) merging an entry of index 0 sets
    [savedTo] to [2^64 - 1], the 64-bit value of [0 - 1]. *)
Lemma merge_full_replace_raises_savedTo :
  (reachable window_3_4 ∧ op_ok (Merge [ent 2 2])
   ∧ Entry.Index (ent 2 2) <= markerIndex window_3_4
   ∧ merge window_3_4 [ent 2 2] = Ok (mkInMemory None [ent 2 2] 2 1)
   ∧ savedTo window_3_4 < 1)
  ∧ (reachable (newInMemory 0) ∧ op_ok (Merge [ent 0 1])
     ∧ Entry.Index (ent 0 1) <= markerIndex (newInMemory 0)
     ∧ merge (newInMemory 0) [ent 0 1] = Ok window_0
     ∧ savedTo (newInMemory 0) < savedTo window_0).
Proof.
  split.
  - split; [apply reachable_window_3_4|]. split; [op_ok_tac|].
    split; [simpl; lia|]. split; [done|]. simpl. lia.
  - split; [apply reachable_fresh|]. split; [op_ok_tac|].
    split; [done|]. split; [done|]. done.
Qed.

(** C4 (amended).  For every window and every non-empty contiguous run
    whose first index [f] is at most [markerIndex], [merge] returns the
    window whose buffer is the run alone, with [markerIndex = f] and
    [savedTo = f - 1] in 64-bit arithmetic, unless [f] is also the 64-bit
    sum [markerIndex + len(entries)], which [merge] tests first to append;
    in that case the same holds when the buffer is empty and [savedTo] is
    [markerIndex - 1], as in every reachable window with an empty buffer
    ([reachable_empty_savedTo]).  The new [savedTo] is at most the old one
    when [f >= 1] and the old one is at least [markerIndex - 1]. *)
Theorem merge_full_replace
    (im : inMemory) (ents : list Entry.t) (e0 : Entry.t) :
  typed im → Forall entry_u64 ents → contiguous ents →
  head ents = Some e0 →
  Entry.Index e0 <= markerIndex im →
  (Entry.Index e0 = upperBound im →
     entries im = [] ∧ savedTo im = wrap64 (markerIndex im - 1)) →
  merge im ents
  = Ok (mkInMemory (snapshot im) ents (Entry.Index e0)
          (wrap64 (Entry.Index e0 - 1)))
  ∧ (1 <= Entry.Index e0 → markerIndex im - 1 <= savedTo im →
     wrap64 (Entry.Index e0 - 1) <= savedTo im).
Proof.
  intros [Hm _ _ _] Hents Hc Hh Hle Hub.
  destruct ents as [|e rest]; simplify_eq/=.
  apply Forall_cons in Hents as [[Hf _] _]. split.
  - destruct im as [ss es m sv]. unfold merge, resizeEntrySlice.
    simpl in *.
    change (set_entries es (mkInMemory ss es m sv))
      with (mkInMemory ss es m sv).
    destruct (Z.eqb_spec (Entry.Index e0)
                (upperBound (mkInMemory ss es m sv))) as [Heq|Hne].
    + destruct (Hub Heq) as [-> ->]. simpl.
      unfold upperBound, len in Heq. simpl in Heq.
      rewrite Z.add_0_r, wrap64_small in Heq by done. subst m.
      rewrite (proj2 (checkEntriesToAppend_Ok [] (e0 :: rest) ())) by done.
      simpl. unfold checkMarkerIndex. simpl. by rewrite Z.eqb_refl.
    + destruct (Z.leb_spec (Entry.Index e0) m); [|lia].
      simpl. unfold checkMarkerIndex. simpl. by rewrite Z.eqb_refl.
  - intros H1 Hinv. rewrite wrap64_small by (unfold u64 in *; lia). lia.
Qed.

Lemma merge_full_replace_witness :
  merge (mkInMemory None [ent 3 1; ent 4 1] 3 3) [ent 2 2; ent 3 2]
  = Ok (mkInMemory None [ent 2 2; ent 3 2] 2 1)
  ∧ wrap64 (2 - 1) <= 3.
Proof.
  destruct (merge_full_replace (mkInMemory None [ent 3 1; ent 4 1] 3 3)
              [ent 2 2; ent 3 2] (ent 2 2)) as [Hmerge Hle].
  - split; simpl; [by apply u64_small|by apply u64_small|op_ok_tac|done].
  - op_ok_tac.
  - by apply contiguousb_spec.
  - reflexivity.
  - simpl. lia.
  - vm_compute. discriminate.
  - split; [exact Hmerge|]. apply Hle; simpl; lia.
Defined.

(** ** C2: saving what [entriesToSave] returned *)

(** A zero [StableLogTo] stands for no log update.  On the reachable
    window holding the single entry of index 0, [entriesToSave] returns that
    entry; the report of its index and term is skipped by [commitUpdate],
    and [entriesToSave] returns the entry again. *)
Lemma commitUpdate_skips_index_zero :
  reachable window_0
  ∧ entriesToSave window_0 = Ok [ent 0 1]
  ∧ last [ent 0 1] = Some (ent 0 1)
  ∧ commitUpdate window_0 (UpdateCommit.mk (Entry.Index (ent 0 1))
                                           (Entry.Term (ent 0 1)) 0)
    = Ok window_0
  ∧ entriesToSave window_0 ≠ Ok [].
Proof.
  split; [apply reachable_window_0|]. by repeat split.
Qed.

Lemma entriesToSave_Ok (im : inMemory) (l : list Entry.t) (e : Entry.t) :
  entriesToSave im = Ok l → last l = Some e → last (entries im) = Some e.
Proof.
  unfold entriesToSave.
  destruct (len (entries im) <? _); [by intros [= <-]|].
  intros H Hl. apply slice_from_Ok in H as [_ ->].
  rewrite last_lookup in Hl. rewrite last_lookup.
  pose proof (lookup_lt_Some _ _ _ Hl) as Hlt.
  rewrite length_drop in Hl, Hlt. rewrite lookup_drop in Hl.
  rewrite <- Hl. f_equal. lia.
Qed.

(** C2 (amended).  On a window whose buffer covers
    [[markerIndex, markerIndex+len)], when [entriesToSave] returns a
    non-empty sequence, [commitUpdate] with [StableLogTo] the index of its
    last entry and [StableLogTerm] that entry's term returns; when that
    index is not zero, [entriesToSave] on the window it returns is empty;
    when it is zero, [commitUpdate] takes the field for absent and
    [entriesToSave] returns the same sequence again.  The length of the
    buffer is an [int] of Go, hence below [2^63]. *)
Theorem entriesToSave_empty_after_commitUpdate
    (im : inMemory) (l : list Entry.t) (e : Entry.t) (cu : UpdateCommit.t) :
  typed im → bufInv im → len (entries im) < 2 ^ 63 →
  entriesToSave im = Ok l → last l = Some e →
  UpdateCommit.StableLogTo cu = Entry.Index e →
  UpdateCommit.StableLogTerm cu = Entry.Term e →
  ∃ im', commitUpdate im cu = Ok im'
         ∧ (0 < Entry.Index e → entriesToSave im' = Ok [])
         ∧ (Entry.Index e = 0 → entriesToSave im' = Ok l).
Proof.
  intros [Hm _ Hents _] Hb Hint Hsave Hlast Hto Hterm.
  pose proof (entriesToSave_Ok _ _ _ Hsave Hlast) as Hl.
  unfold commitUpdate. rewrite Hto, Hterm.
  destruct (Z.ltb_spec 0 (Entry.Index e)) as [Hpos|Hzero].
  - pose proof (covers_last _ _ _ Hb Hl) as Hidx.
    assert (u64 (Entry.Index e)) as Hu.
    { rewrite last_lookup in Hl. apply list_elem_of_lookup_2 in Hl.
      by destruct (proj1 (Forall_forall _ _) Hents _ Hl). }
    assert (1 <= len (entries im)) as Hlen.
    { rewrite last_lookup in Hl. apply lookup_lt_Some in Hl.
      unfold len. lia. }
    assert (savedLogTo im (Entry.Index e) (Entry.Term e)
            = Ok (set_savedTo (Entry.Index e) im)) as Hsaved.
    { rewrite savedLogTo_spec by done.
      replace (Z.to_nat (Entry.Index e - markerIndex im))
        with (pred (length (entries im))) by (unfold len in *; lia).
      rewrite <- last_lookup, Hl, Z.eqb_refl.
      by destruct (Z.leb_spec (markerIndex im) (Entry.Index e)); [|lia]. }
    assert (entriesToSave (set_savedTo (Entry.Index e) im) = Ok []) as Hnone.
    { unfold entriesToSave. simpl.
      replace (wrap64 (wrap64 (Entry.Index e + 1) - markerIndex im))
        with (len (entries im)) by (clear Hl Hsaved Hsave Hlast; u64_lia).
      rewrite Z.ltb_irrefl. unfold slice_from, len.
      rewrite Z.ltb_irrefl, Nat2Z.id. by rewrite drop_all. }
    rewrite Hsaved. simpl. eexists. split; [done|]. split; [|lia].
    intros _. destruct (0 <? UpdateCommit.StableSnapshotTo cu); [|done].
    by destruct (savedSnapshotTo_cases (set_savedTo (Entry.Index e) im)
                   (UpdateCommit.StableSnapshotTo cu)) as [-> | ->].
  - simpl. eexists. split; [done|]. split; [lia|].
    intros _. destruct (0 <? UpdateCommit.StableSnapshotTo cu); [|done].
    by destruct (savedSnapshotTo_cases im (UpdateCommit.StableSnapshotTo cu))
      as [-> | ->].
Qed.

Lemma entriesToSave_empty_after_commitUpdate_witness :
  ∃ im', commitUpdate window_1_4 (UpdateCommit.mk 4 1 0) = Ok im'
         ∧ entriesToSave im' = Ok [].
Proof.
  pose proof (reachable_invariants _ reachable_window_1_4) as (Ht & Hb & _).
  destruct (entriesToSave_empty_after_commitUpdate window_1_4
              [ent 1 1; ent 2 1; ent 3 1; ent 4 1] (ent 4 1)
              (UpdateCommit.mk 4 1 0))
    as (im' & Hcommit & Hempty & _);
    [done|done|done|reflexivity|reflexivity|reflexivity|reflexivity|].
  exists im'. split; [exact Hcommit|]. apply Hempty. simpl. lia.
Defined.

(** ** C7: [getTerm] *)

(** After [restore] of a snapshot of index [2^64 - 1] the marker wraps to
    0 and the buffer is empty: [getLastIndex] reports the snapshot's index,
    every index is at least the marker and at most that, and [getTerm]
    indexes the empty buffer. *)
Lemma getTerm_panics_on_empty_buffer :
  reachable window_snapshot_max
  ∧ markerIndex window_snapshot_max <= 5
  ∧ getLastIndex window_snapshot_max = (maxUint64, true)
  ∧ 5 <= maxUint64
  ∧ getTerm window_snapshot_max 5 = Panic.
Proof.
  split; [apply reachable_window_snapshot_max|]. by repeat split.
Qed.

(** C7 (amended).  On a window whose buffer covers
    [[markerIndex, markerIndex+len)] and which, when the buffer is empty,
    has no pending snapshot at or above [markerIndex], [getTerm index]
    returns the snapshot's term, found, when [index < markerIndex] and the
    pending snapshot has index [index]; the term of the buffered entry of
    that index, found, when [index >= markerIndex] and [index] is at most
    the index [getLastIndex] reports; and not found, without panic, for
    every other index. *)
Theorem getTerm_cases (im : inMemory) (index : Z) :
  typed im → bufInv im → u64 index →
  (entries im = [] → ∀ ss, snapshot im = Some ss →
     Snapshot.Index ss < markerIndex im) →
  (∀ ss, index < markerIndex im → snapshot im = Some ss →
     Snapshot.Index ss = index →
     getTerm im index = Ok (Snapshot.Term ss, true))
  ∧ (∀ lastIndex, markerIndex im <= index →
       getLastIndex im = (lastIndex, true) → index <= lastIndex →
       ∃ e, e ∈ entries im ∧ Entry.Index e = index
            ∧ getTerm im index = Ok (Entry.Term e, true))
  ∧ (¬ (index < markerIndex im
        ∧ ∃ ss, snapshot im = Some ss ∧ Snapshot.Index ss = index) →
     ¬ (markerIndex im <= index
        ∧ ∃ lastIndex, getLastIndex im = (lastIndex, true)
                       ∧ index <= lastIndex) →
     getTerm im index = Ok (0, false)).
Proof.
  intros [Hm _ _ _] Hb Hi Hsnap. unfold getTerm. repeat split.
  - intros ss Hlt Hss Heq.
    destruct (Z.ltb_spec index (markerIndex im)); [|lia].
    unfold getSnapshotIndex. rewrite Hss. simpl.
    by rewrite (proj2 (Z.eqb_eq _ _) Heq).
  - intros lastIndex Hge Hlast Hle.
    destruct (Z.ltb_spec index (markerIndex im)); [lia|].
    rewrite Hlast. simpl.
    destruct (Z.leb_spec index lastIndex); [|lia].
    unfold getLastIndex, getSnapshotIndex in Hlast.
    destruct (last (entries im)) as [l|] eqn:Hl.
    + injection Hlast as <-.
      destruct (covers_position im index l) as (-> & e & He & Hidx);
        try done.
      exists e. split; [by eapply list_elem_of_lookup_2|]. split; [done|].
      unfold index_at. by rewrite He.
    + apply last_None in Hl.
      destruct (snapshot im) as [ss|] eqn:Hss; [|done].
      injection Hlast as <-. specialize (Hsnap Hl ss eq_refl). lia.
  - intros Hno1 Hno2.
    destruct (Z.ltb_spec index (markerIndex im)).
    + unfold getSnapshotIndex.
      destruct (snapshot im) as [ss|] eqn:Hss; [|done]. simpl.
      destruct (Z.eqb_spec (Snapshot.Index ss) index); [|done].
      destruct Hno1. eauto.
    + destruct (getLastIndex im) as [lastIndex [|]]; [|done]. simpl.
      destruct (Z.leb_spec index lastIndex); [|done].
      destruct Hno2. eauto.
Qed.

Lemma getTerm_cases_witness :
  ∃ e, e ∈ entries window_1_4 ∧ Entry.Index e = 3
       ∧ getTerm window_1_4 3 = Ok (Entry.Term e, true).
Proof.
  pose proof (reachable_invariants _ reachable_window_1_4) as (Ht & Hb & _).
  apply (getTerm_cases window_1_4 3 Ht Hb) with (lastIndex := 4);
    [by apply u64_small|discriminate|simpl; lia|reflexivity|lia].
Defined.

(** ** C8: [restore] and [savedSnapshotTo] *)

(** [restore] of a snapshot of index [2^64 - 1] gives [markerIndex = 0],
    the 64-bit sum, not the snapshot's index plus one. *)
Lemma restore_marker_wraps :
  snapshot_u64 (Snapshot.mk maxUint64 7)
  ∧ restore (newInMemory 0) (Snapshot.mk maxUint64 7) = window_snapshot_max
  ∧ markerIndex window_snapshot_max = 0
  ∧ markerIndex window_snapshot_max
    ≠ Snapshot.Index (Snapshot.mk maxUint64 7) + 1.
Proof.
  split; [op_ok_tac|]. by vm_compute.
Qed.

(** C8 (amended).  From any window, [restore ss] gives an empty buffer,
    [savedTo = ss.Index], [ss] pending, and [markerIndex = ss.Index + 1]
    when [ss.Index] is below [2^64 - 1], [markerIndex = 0] when it is
    [2^64 - 1]; [savedSnapshotTo i] on that window clears the pending
    snapshot when [i = ss.Index], leaves it set otherwise, and changes no
    other field.  Neither function can panic. *)
Theorem restore_then_savedSnapshotTo
    (im : inMemory) (ss : Snapshot.t) (i : Z) :
  snapshot_u64 ss →
  restore im ss
  = mkInMemory (Some ss) []
      (if decide (Snapshot.Index ss = maxUint64) then 0
       else Snapshot.Index ss + 1)
      (Snapshot.Index ss)
  ∧ savedSnapshotTo (restore im ss) i
    = mkInMemory (if decide (i = Snapshot.Index ss) then None else Some ss) []
        (if decide (Snapshot.Index ss = maxUint64) then 0
         else Snapshot.Index ss + 1)
        (Snapshot.Index ss).
Proof.
  intros [Hi _].
  assert (wrap64 (Snapshot.Index ss + 1)
          = if decide (Snapshot.Index ss = maxUint64) then 0
            else Snapshot.Index ss + 1) as Hw.
  { case_decide; u64_lia. }
  unfold restore, savedSnapshotTo, getSnapshotIndex. simpl. rewrite Hw.
  split; [done|].
  destruct (Z.eqb_spec (Snapshot.Index ss) i) as [Heq|Hne]; simpl.
  - by destruct (decide (i = Snapshot.Index ss)).
  - by destruct (decide (i = Snapshot.Index ss)); [congruence|].
Qed.

Lemma restore_then_savedSnapshotTo_witness :
  (restore window_1_4 (Snapshot.mk 10 3)
   = mkInMemory (Some (Snapshot.mk 10 3)) [] 11 10
   ∧ savedSnapshotTo (restore window_1_4 (Snapshot.mk 10 3)) 10
     = mkInMemory None [] 11 10)
  ∧ (restore window_1_4 (Snapshot.mk 10 3)
     = mkInMemory (Some (Snapshot.mk 10 3)) [] 11 10
     ∧ savedSnapshotTo (restore window_1_4 (Snapshot.mk 10 3)) 11
       = mkInMemory (Some (Snapshot.mk 10 3)) [] 11 10).
Proof.
  split.
  - apply (restore_then_savedSnapshotTo window_1_4 (Snapshot.mk 10 3) 10).
    op_ok_tac.
  - apply (restore_then_savedSnapshotTo window_1_4 (Snapshot.mk 10 3) 11).
    op_ok_tac.
Defined.

(** The example of the specification. *)
Example restore_10_3 :
  restore window_1_4 (Snapshot.mk 10 3)
  = mkInMemory (Some (Snapshot.mk 10 3)) [] 11 10
  ∧ snapshot (savedSnapshotTo (restore window_1_4 (Snapshot.mk 10 3)) 10)
    = None
  ∧ savedSnapshotTo (restore window_1_4 (Snapshot.mk 10 3)) 11
    = restore window_1_4 (Snapshot.mk 10 3).
Proof. by repeat split. Qed.

(** ** C10: the lookup of [getTerm] stays inside the buffer *)

(** On the reachable window that [restore] of a snapshot of index
    [2^64 - 1] leaves, the buffer is empty, yet index 5 is at least the
    marker and at most the index that [getLastIndex] reports. *)
Lemma lastIndex_reported_for_empty_buffer :
  reachable window_snapshot_max
  ∧ markerIndex window_snapshot_max <= 5
  ∧ getLastIndex window_snapshot_max = (maxUint64, true)
  ∧ 5 <= maxUint64
  ∧ entries window_snapshot_max = []
  ∧ index_at (entries window_snapshot_max)
      (wrap64 (5 - markerIndex window_snapshot_max)) = Panic.
Proof.
  split; [apply reachable_window_snapshot_max|]. by repeat split.
Qed.

(** C10 (amended).  In every reachable window with an empty buffer, a
    pending snapshot has index [markerIndex - 1] in 64-bit arithmetic.
    Consequently, unless the buffer is empty with a pending snapshot of
    index [2^64 - 1], whenever [index >= markerIndex] and [getLastIndex]
    reports an index at least as large, the buffer is not empty and the
    lookup at position [index - markerIndex] returns an entry. *)
Theorem getTerm_lookup_in_bounds (im : inMemory) :
  reachable im →
  (entries im = [] → ∀ ss, snapshot im = Some ss →
     Snapshot.Index ss = wrap64 (markerIndex im - 1))
  ∧ ((entries im = [] → ∀ ss, snapshot im = Some ss →
        Snapshot.Index ss ≠ maxUint64) →
     ∀ index lastIndex,
       markerIndex im <= index → getLastIndex im = (lastIndex, true) →
       index <= lastIndex →
       entries im ≠ []
       ∧ ∃ e, index_at (entries im) (wrap64 (index - markerIndex im)) = Ok e).
Proof.
  intros Hr.
  destruct (reachable_invariants im Hr) as ([Hm _ Hents Hss] & Hb & Hsn).
  split; [done|]. intros Hmax index lastIndex Hge Hlast Hle.
  unfold getLastIndex, getSnapshotIndex in Hlast.
  destruct (last (entries im)) as [l|] eqn:Hl.
  - injection Hlast as <-.
    assert (u64 index) as Hi.
    { rewrite last_lookup in Hl. apply list_elem_of_lookup_2 in Hl.
      destruct (proj1 (Forall_forall _ _) Hents _ Hl) as [Hu _].
      unfold u64 in *. lia. }
    destruct (covers_position im index l) as (-> & e & He & _); try done.
    split; [by intros Hnil; rewrite Hnil in Hl|].
    exists e. unfold index_at. by rewrite He.
  - apply last_None in Hl.
    destruct (snapshot im) as [ss|] eqn:Hsnap; [|done].
    injection Hlast as <-.
    specialize (Hsn Hl ss Hsnap). specialize (Hmax Hl ss eq_refl).
    destruct (Hss ss eq_refl) as [Hu _]. exfalso. clear Hss Hents.
    u64_lia.
Qed.

Lemma getTerm_lookup_in_bounds_witness :
  entries window_1_4 ≠ []
  ∧ ∃ e, index_at (entries window_1_4)
           (wrap64 (3 - markerIndex window_1_4)) = Ok e.
Proof.
  apply (getTerm_lookup_in_bounds window_1_4 reachable_window_1_4)
    with (lastIndex := 4);
    [discriminate|simpl; lia|reflexivity|lia].
Defined.

(** ** Further properties of the window *)

Lemma covers_filter_from (l : list Entry.t) (m lo : Z) :
  covers m l →
  filter (λ e, lo <= Entry.Index e) l = drop (Z.to_nat (lo - m)) l.
Proof.
  revert m. induction l as [|e l IH]; intros m H; [by rewrite drop_nil|].
  apply covers_cons in H as [He Hl].
  destruct (decide (lo <= m)) as [Hlo|Hlo].
  - rewrite filter_cons_True, (IH _ Hl) by lia.
    replace (Z.to_nat (lo - m)) with 0%nat by lia.
    by replace (Z.to_nat (lo - (m + 1))) with 0%nat by lia.
  - rewrite filter_cons_False, (IH _ Hl) by lia.
    by replace (Z.to_nat (lo - m)) with (S (Z.to_nat (lo - (m + 1)))) by lia.
Qed.

(** The buffer of a well-formed window ends at or below [2^64 - 1]. *)
Lemma covers_len_bound (im : inMemory) :
  typed im → bufInv im → markerIndex im + len (entries im) <= 2 ^ 64.
Proof.
  intros [Hm _ Hents _] Hb.
  destruct (last (entries im)) as [l|] eqn:Hl.
  - pose proof (covers_last _ _ _ Hb Hl) as Hidx.
    rewrite last_lookup in Hl. apply list_elem_of_lookup_2 in Hl.
    destruct (proj1 (Forall_forall _ _) Hents _ Hl) as [Hu _].
    unfold u64 in *. lia.
  - apply last_None in Hl. rewrite Hl. unfold len, u64 in *. simpl. lia.
Qed.

(** *** [merge]: pure append *)

(** X1.  On a window whose buffer covers [[markerIndex, markerIndex+len)],
    merging a non-empty contiguous run that starts at the index just after
    the buffer returns the window with the run appended; [markerIndex],
    [savedTo] and the pending snapshot are kept. *)
Theorem merge_append
    (im : inMemory) (ents : list Entry.t) (e0 : Entry.t) :
  typed im → bufInv im →
  Forall entry_u64 ents → contiguous ents → head ents = Some e0 →
  Entry.Index e0 = markerIndex im + len (entries im) →
  merge im ents = Ok (set_entries (entries im ++ ents) im).
Proof.
  intros [Hm _ _ _] Hb Hents Hc Hh Hf.
  destruct ents as [|e rest]; simplify_eq/=.
  apply Forall_cons in Hents as [[Hu _] _].
  assert (covers (markerIndex im) (entries im ++ e0 :: rest)) as Hcov.
  { apply covers_app. split; [done|]. rewrite <- Hf.
    by apply contiguous_covers. }
  destruct im as [ss es m sv]. unfold merge, resizeEntrySlice. simpl in *.
  change (set_entries es (mkInMemory ss es m sv)) with (mkInMemory ss es m sv).
  unfold upperBound. simpl. rewrite <- Hf, (wrap64_small _ Hu), Z.eqb_refl.
  rewrite (proj2 (checkEntriesToAppend_Ok es (e0 :: rest) ()))
    by (by eapply covers_contiguous).
  simpl. rewrite (proj2 (checkMarkerIndex_Ok _ ())); [done|].
  simpl. intros x Hx. rewrite head_lookup in Hx. rewrite (Hcov _ _ Hx). lia.
Qed.

Lemma merge_append_witness :
  merge window_1_4 [ent 5 2; ent 6 2; ent 7 2]
  = Ok (mkInMemory None
          [ent 1 1; ent 2 1; ent 3 1; ent 4 1; ent 5 2; ent 6 2; ent 7 2]
          1 0).
Proof.
  pose proof (reachable_invariants _ reachable_window_1_4) as (Ht & Hb & _).
  apply (merge_append window_1_4 [ent 5 2; ent 6 2; ent 7 2] (ent 5 2));
    [done|done|op_ok_tac|by apply contiguousb_spec|reflexivity|reflexivity].
Defined.

(** *** [merge]: a gap is fatal *)

(** X2.  When the first index of the input lies beyond the index just
    after the buffer, [merge] panics: the range it asks of [getEntries]
    exceeds the buffer. *)
Theorem merge_gap_panics
    (im : inMemory) (ents : list Entry.t) (e0 : Entry.t) :
  typed im → head ents = Some e0 →
  markerIndex im + len (entries im) < Entry.Index e0 →
  merge im ents = Panic.
Proof.
  intros Ht Hh Hgap. pose proof (upperBound_le im Ht) as Hub.
  destruct Ht as [Hm _ _ _].
  destruct ents as [|e rest]; simplify_eq/=.
  destruct im as [ss es m sv]. unfold merge, resizeEntrySlice. simpl in *.
  change (set_entries es (mkInMemory ss es m sv)) with (mkInMemory ss es m sv).
  destruct (Z.eqb_spec (Entry.Index e0) (upperBound (mkInMemory ss es m sv)));
    [lia|].
  destruct (Z.leb_spec (Entry.Index e0) m);
    [unfold len, u64 in *; lia|].
  rewrite getEntries_Panic; [done|]. simpl. lia.
Qed.

Lemma merge_gap_panics_witness :
  merge window_1_4 [ent 6 1; ent 7 1] = Panic.
Proof.
  apply (merge_gap_panics window_1_4 [ent 6 1; ent 7 1] (ent 6 1)).
  - apply reachable_invariants, reachable_window_1_4.
  - reflexivity.
  - vm_compute. reflexivity.
Defined.

(** *** [appliedLogTo] *)

(** X3.  On a window whose buffer covers [[markerIndex, markerIndex+len)],
    [appliedLogTo index] with [index] inside the buffer returns the window
    with exactly the buffered entries of index at least [index], with
    [markerIndex = index], and with [savedTo] and the pending snapshot as
    they were; for any other [index] it returns the window unchanged.  It
    never panics. *)
Theorem appliedLogTo_compacts (im : inMemory) (index : Z) :
  typed im → bufInv im → u64 index →
  (markerIndex im <= index < markerIndex im + len (entries im) →
     appliedLogTo im index
     = Ok (mkInMemory (snapshot im)
             (filter (λ e, index <= Entry.Index e) (entries im))
             index (savedTo im)))
  ∧ (¬ (markerIndex im <= index < markerIndex im + len (entries im)) →
     appliedLogTo im index = Ok im).
Proof.
  intros [Hm _ _ _] Hb Hi. rewrite appliedLogTo_spec by done. split; intros H.
  - rewrite decide_True by done.
    by rewrite (covers_filter_from _ _ index Hb).
  - by rewrite decide_False.
Qed.

Lemma appliedLogTo_compacts_witness :
  appliedLogTo window_1_4 3 = Ok window_3_4
  ∧ appliedLogTo window_1_4 5 = Ok window_1_4.
Proof.
  pose proof (reachable_invariants _ reachable_window_1_4) as (Ht & Hb & _).
  split.
  - apply (appliedLogTo_compacts window_1_4 3 Ht Hb); [by apply u64_small|].
    vm_compute. split; [discriminate|reflexivity].
  - apply (appliedLogTo_compacts window_1_4 5 Ht Hb); [by apply u64_small|].
    vm_compute. intros [_ H]. discriminate.
Defined.

(** [getTerm] at or above the marker of a non-empty buffer reads the
    position [index - markerIndex]. *)
Lemma getTerm_buffer (im : inMemory) (index : Z) :
  typed im → bufInv im → u64 index →
  markerIndex im <= index → entries im ≠ [] →
  getTerm im index
  = Ok (match entries im !! Z.to_nat (index - markerIndex im) with
        | Some e => (Entry.Term e, true)
        | None => (0, false)
        end).
Proof.
  intros [Hm _ _ _] Hb Hi Hge Hne. unfold getTerm, getLastIndex.
  destruct (Z.ltb_spec index (markerIndex im)); [lia|].
  destruct (last (entries im)) as [l|] eqn:Hl; [|by apply last_None in Hl].
  destruct (Z.leb_spec index (Entry.Index l)) as [Hle|Hgt]; simpl.
  - destruct (covers_position im index l) as (-> & e & He & _); try done.
    unfold index_at. by rewrite He.
  - rewrite (covers_last _ _ _ Hb Hl) in Hgt.
    rewrite lookup_ge_None_2; [done|]. unfold len in Hgt. lia.
Qed.

(** X4.  Compaction loses no term at or above the new marker: after
    [appliedLogTo], [getTerm] answers every index at or above the new
    [markerIndex] as it did before. *)
Theorem getTerm_after_appliedLogTo (im im' : inMemory) (index i : Z) :
  typed im → bufInv im → u64 index → u64 i →
  appliedLogTo im index = Ok im' → markerIndex im' <= i →
  getTerm im' i = getTerm im i.
Proof.
  intros Ht Hb Hindex Hi Happlied Hge.
  pose proof (typed_run im im' (AppliedLogTo index) Ht Hindex Happlied) as Ht'.
  pose proof (bufInv_run im im' (AppliedLogTo index) Ht Hb Hindex Happlied)
    as Hb'.
  destruct Ht as [Hm Hs He Hss].
  rewrite appliedLogTo_spec in Happlied by done. injection Happlied as <-.
  case_decide as Hin; [|done]. simpl in Hge, Ht', Hb'.
  assert (entries im ≠ []) as Hne.
  { intros Hnil. rewrite Hnil in Hin. unfold len in Hin. simpl in Hin. lia. }
  assert (drop (Z.to_nat (index - markerIndex im)) (entries im) ≠ [])
    as Hne'.
  { intros Hnil. apply (f_equal length) in Hnil.
    rewrite length_drop in Hnil. unfold len in Hin. simpl in Hnil. lia. }
  rewrite (getTerm_buffer _ i Ht' Hb' Hi Hge Hne').
  rewrite (getTerm_buffer im i) by (done || lia || by split).
  simpl. rewrite lookup_drop.
  by replace (Z.to_nat (index - markerIndex im) + Z.to_nat (i - index))%nat
    with (Z.to_nat (i - markerIndex im)) by lia.
Qed.

Lemma getTerm_after_appliedLogTo_witness :
  getTerm window_3_4 4 = getTerm window_1_4 4.
Proof.
  pose proof (reachable_invariants _ reachable_window_1_4) as (Ht & Hb & _).
  apply (getTerm_after_appliedLogTo window_1_4 window_3_4 3 4 Ht Hb);
    [by apply u64_small|by apply u64_small|reflexivity|simpl; lia].
Defined.

(** *** [entriesToSave] *)

(** When [savedTo + 1] is a 64-bit number at or above the marker,
    [entriesToSave] drops the positions below [savedTo + 1]. *)
Lemma entriesToSave_drop (im : inMemory) :
  u64 (markerIndex im) → u64 (savedTo im) →
  markerIndex im <= savedTo im + 1 → savedTo im ≠ maxUint64 →
  entriesToSave im
  = Ok (drop (Z.to_nat (savedTo im + 1 - markerIndex im)) (entries im)).
Proof.
  intros Hm Hs Hge Hmax. unfold entriesToSave.
  replace (wrap64 (wrap64 (savedTo im + 1) - markerIndex im))
    with (savedTo im + 1 - markerIndex im) by u64_lia.
  unfold len, slice_from.
  destruct (Z.ltb_spec (Z.of_nat (length (entries im)))
              (savedTo im + 1 - markerIndex im)); [|done].
  rewrite drop_ge; [done|lia].
Qed.

(** X5.  On a window whose buffer covers [[markerIndex, markerIndex+len)],
    with [savedTo >= markerIndex - 1] and [savedTo] below [2^64 - 1],
    [entriesToSave] returns exactly the buffered entries of index above
    [savedTo]. *)
Theorem entriesToSave_above_savedTo (im : inMemory) :
  typed im → bufInv im →
  markerIndex im - 1 <= savedTo im → savedTo im ≠ maxUint64 →
  entriesToSave im
  = Ok (filter (λ e, savedTo im < Entry.Index e) (entries im)).
Proof.
  intros [Hm Hs _ _] Hb Hge Hmax.
  rewrite entriesToSave_drop by (done || lia).
  rewrite <- (covers_filter_from _ _ (savedTo im + 1) Hb). f_equal.
  apply list_filter_iff. intros e. lia.
Qed.

Lemma entriesToSave_above_savedTo_witness :
  entriesToSave (mkInMemory None [ent 1 1; ent 2 1; ent 3 1; ent 4 1] 1 2)
  = Ok [ent 3 1; ent 4 1].
Proof.
  apply (entriesToSave_above_savedTo
           (mkInMemory None [ent 1 1; ent 2 1; ent 3 1; ent 4 1] 1 2)).
  - split; simpl; [by apply u64_small|by apply u64_small|op_ok_tac|done].
  - apply (contiguous_covers _ (ent 1 1)); [by apply contiguousb_spec|done].
  - simpl. lia.
  - vm_compute. discriminate.
Defined.

(** X6.  When the marker has moved beyond [savedTo + 1], which
    [appliedLogTo] of entries not yet saved brings about, [entriesToSave]
    returns nothing, whatever the buffer holds: the 64-bit difference
    [savedTo + 1 - markerIndex] wraps above the length of the buffer. *)
Theorem entriesToSave_nothing_below_marker (im : inMemory) :
  typed im → bufInv im →
  savedTo im + 1 < markerIndex im →
  entriesToSave im = Ok [].
Proof.
  intros Ht Hb Hlt. pose proof (covers_len_bound im Ht Hb) as Hlen.
  destruct Ht as [Hm Hs _ _]. unfold entriesToSave.
  destruct (Z.ltb_spec (len (entries im))
              (wrap64 (wrap64 (savedTo im + 1) - markerIndex im)));
    [done|].
  exfalso. u64_lia.
Qed.

Lemma entriesToSave_nothing_below_marker_witness :
  entriesToSave window_3_4 = Ok [].
Proof.
  apply (entriesToSave_nothing_below_marker window_3_4).
  - apply reachable_invariants, reachable_window_3_4.
  - apply reachable_invariants, reachable_window_3_4.
  - simpl. lia.
Defined.

(** X7.  Compacting only entries that are saved leaves the entries to save
    as they were: when [index <= savedTo + 1], [entriesToSave] returns the
    same after [appliedLogTo index] as before. *)
Theorem entriesToSave_after_appliedLogTo (im im' : inMemory) (index : Z) :
  typed im → bufInv im → u64 index →
  index <= savedTo im + 1 → savedTo im ≠ maxUint64 →
  appliedLogTo im index = Ok im' →
  entriesToSave im' = entriesToSave im.
Proof.
  intros [Hm Hs _ _] Hb Hi Hle Hmax Happlied.
  rewrite appliedLogTo_spec in Happlied by done. injection Happlied as <-.
  case_decide as Hin; [|done].
  rewrite !entriesToSave_drop by (done || simpl; lia). simpl.
  rewrite drop_drop. do 2 f_equal. lia.
Qed.

Lemma entriesToSave_after_appliedLogTo_witness :
  entriesToSave (mkInMemory None [ent 3 1; ent 4 1] 3 2)
  = entriesToSave (mkInMemory None [ent 1 1; ent 2 1; ent 3 1; ent 4 1] 1 2).
Proof.
  apply (entriesToSave_after_appliedLogTo
           (mkInMemory None [ent 1 1; ent 2 1; ent 3 1; ent 4 1] 1 2) _ 3).
  - split; simpl; [by apply u64_small|by apply u64_small|op_ok_tac|done].
  - apply (contiguous_covers _ (ent 1 1)); [by apply contiguousb_spec|done].
  - by apply u64_small.
  - simpl. lia.
  - vm_compute. discriminate.
  - reflexivity.
Defined.

(** *** [savedTo] stays inside the window *)

Lemma savedLogTo_Ok_buffer (im im' : inMemory) (index term : Z) :
  typed im → bufInv im → u64 index →
  savedLogTo im index term = Ok im' →
  im' = im
  ∨ (markerIndex im <= index < markerIndex im + len (entries im)
     ∧ im' = set_savedTo index im).
Proof.
  intros [Hm _ _ _] Hb Hi. rewrite savedLogTo_spec by done.
  intros [= <-].
  destruct (entries im !! Z.to_nat (index - markerIndex im)) as [e|] eqn:He;
    [|by left].
  destruct (Z.leb_spec (markerIndex im) index); [|by left].
  destruct (Entry.Term e =? term); [|by left].
  right. split; [|done]. apply lookup_lt_Some in He. unfold len. lia.
Qed.

Lemma commitUpdate_Ok_buffer (im im' : inMemory) (cu : UpdateCommit.t) :
  typed im → bufInv im → updateCommit_u64 cu →
  commitUpdate im cu = Ok im' →
  ∃ im1, (im1 = im
          ∨ (markerIndex im <= UpdateCommit.StableLogTo cu
               < markerIndex im + len (entries im)
             ∧ im1 = set_savedTo (UpdateCommit.StableLogTo cu) im))
         ∧ (im' = im1 ∨ im' = set_snapshot None im1).
Proof.
  intros Ht Hb (Hto & _ & _). unfold commitUpdate. intros H.
  apply bind_Ok in H as (im1 & H1 & [= <-]). exists im1. split.
  - destruct (0 <? UpdateCommit.StableLogTo cu).
    + by apply savedLogTo_Ok_buffer in H1.
    + injection H1 as <-. by left.
  - destruct (0 <? UpdateCommit.StableSnapshotTo cu); [|by left].
    destruct (savedSnapshotTo_cases im1 (UpdateCommit.StableSnapshotTo cu))
      as [-> | ->]; auto.
Qed.

(** X8.  In every reachable window [savedTo] is at most the last buffered
    index, [markerIndex + len - 1], or it is [2^64 - 1]: the value that
    [newInMemory] and [restore] assign for the index [2^64 - 1], and the
    64-bit value of [0 - 1] that a full replace starting at index 0
    assigns. *)
Theorem savedTo_within_buffer (im : inMemory) :
  reachable im →
  savedTo im = maxUint64
  ∨ savedTo im + 1 <= markerIndex im + len (entries im).
Proof.
  induction 1 as [lastIndex Hl|im im' o Hr IH Hok Hrun]; simpl.
  { u64_lia. }
  destruct (reachable_invariants im Hr) as (Ht & Hb & _).
  pose proof (upperBound_le im Ht) as Hub.
  pose proof Ht as [Hm Hs _ _].
  destruct o as [ents|i t|i|i|cu|ss]; simpl in *.
  - destruct Hok as (Hents & _ & _).
    apply (merge_Ok _ _ _ Hm) in Hrun as (e0 & Hh & _ & Hcases); [|done].
    assert (u64 (Entry.Index e0)) as Hf.
    { destruct ents; simplify_eq/=. by apply Forall_cons in Hents as [[? _] _]. }
    destruct Hcases as [(_ & _ & ->)|[(_ & _ & ->)|(_ & ? & _ & ->)]]; simpl.
    + unfold len in *. rewrite length_app. lia.
    + unfold len. clear IH Hub. u64_lia.
    + right. unfold len in *. rewrite length_app, length_take.
      rewrite (wrap64_small (Entry.Index e0 - 1)) by (unfold u64 in *; lia).
      lia.
  - destruct Hok as [Hi _].
    apply savedLogTo_Ok_buffer in Hrun as [->|[? ->]]; try done.
    simpl. lia.
  - rewrite appliedLogTo_spec in Hrun by done. injection Hrun as <-.
    case_decide; [|done]. simpl. unfold len in *. rewrite length_drop. lia.
  - injection Hrun as <-.
    by destruct (savedSnapshotTo_cases im i) as [-> | ->].
  - apply commitUpdate_Ok_buffer in Hrun
      as (im1 & [->|[? ->]] & [->| ->]); try done; simpl; lia.
  - injection Hrun as <-. destruct Hok as [Hi _]. simpl.
    clear IH Hub. u64_lia.
Qed.

Lemma savedTo_within_buffer_witness :
  savedTo window_1_4 = maxUint64
  ∨ savedTo window_1_4 + 1
    <= markerIndex window_1_4 + len (entries window_1_4).
Proof. apply (savedTo_within_buffer window_1_4 reachable_window_1_4). Defined.

(** *** What [merge] makes visible *)

(** X9.  An entry that [merge] was given is found by [getTerm]: when
    [merge] returns, [getTerm] at the index of any merged entry returns
    that entry's term. *)
Theorem getTerm_after_merge
    (im im' : inMemory) (ents : list Entry.t) (e : Entry.t) :
  typed im → bufInv im → op_ok (Merge ents) →
  merge im ents = Ok im' → e ∈ ents →
  getTerm im' (Entry.Index e) = Ok (Entry.Term e, true).
Proof.
  intros Ht Hb Hok Hmerge He.
  pose proof (typed_run im im' (Merge ents) Ht Hok Hmerge) as Ht'.
  pose proof (bufInv_run im im' (Merge ents) Ht Hb Hok Hmerge) as Hb'.
  destruct Hok as (Hents & _ & _).
  assert (e ∈ entries im') as Hin.
  { apply (merge_Ok _ _ _ (typed_marker _ Ht) Hents) in Hmerge
      as (e0 & _ & _ & Hcases).
    destruct Hcases as [(_ & _ & ->)|[(_ & _ & ->)|(_ & _ & _ & ->)]];
      simpl; try done; apply elem_of_app; by right. }
  apply list_elem_of_lookup_1 in Hin as [j Hj].
  pose proof (Hb' _ _ Hj) as Hidx.
  rewrite getTerm_buffer; try done.
  - replace (Z.to_nat (Entry.Index e - markerIndex im')) with j by lia.
    by rewrite Hj.
  - by destruct (proj1 (Forall_forall _ _) Hents _ He).
  - lia.
  - intros Hnil. by rewrite Hnil in Hj.
Qed.

Lemma getTerm_after_merge_witness :
  getTerm (mkInMemory None [ent 1 1; ent 2 1; ent 3 2; ent 4 2] 1 0) 4
  = Ok (2, true).
Proof.
  pose proof (reachable_invariants _ reachable_window_1_4) as (Ht & Hb & _).
  apply (getTerm_after_merge window_1_4 _ [ent 3 2; ent 4 2] (ent 4 2) Ht Hb);
    [op_ok_tac|reflexivity|].
  by apply (list_elem_of_lookup_2 _ 1%nat).
Defined.

Lemma entriesToSave_drop_wrapped (im : inMemory) :
  wrap64 (wrap64 (savedTo im + 1) - markerIndex im) <= len (entries im) →
  entriesToSave im
  = Ok (drop (Z.to_nat (wrap64 (wrap64 (savedTo im + 1) - markerIndex im)))
          (entries im)).
Proof.
  intros H. unfold entriesToSave, slice_from.
  destruct (Z.ltb_spec (len (entries im))
              (wrap64 (wrap64 (savedTo im + 1) - markerIndex im))); [lia|].
  fold (len (entries im)).
  by destruct (Z.ltb_spec (len (entries im))
                 (wrap64 (wrap64 (savedTo im + 1) - markerIndex im)));
    [lia|].
Qed.

(** X10.  What [merge] was given is then to be saved: on a window with
    [markerIndex - 1 <= savedTo <= markerIndex + len - 1], when [merge]
    returns, the sequence [entriesToSave] returns ends with the merged
    entries. *)
Theorem entriesToSave_after_merge
    (im im' : inMemory) (ents : list Entry.t) :
  typed im → Forall entry_u64 ents →
  markerIndex im - 1 <= savedTo im →
  savedTo im + 1 <= markerIndex im + len (entries im) →
  merge im ents = Ok im' →
  ∃ pre, entriesToSave im' = Ok (pre ++ ents).
Proof.
  intros Ht Hents Hlo Hhi Hmerge.
  pose proof (upperBound_le im Ht) as Hub. destruct Ht as [Hm Hs _ _].
  apply (merge_Ok _ _ _ Hm Hents) in Hmerge as (e0 & Hh & _ & Hcases).
  assert (u64 (Entry.Index e0)) as Hf.
  { destruct ents; simplify_eq/=. by apply Forall_cons in Hents as [[? _] _]. }
  destruct Hcases as [(_ & _ & ->)|[(_ & _ & ->)|(_ & ? & _ & ->)]].
  - assert (wrap64 (wrap64 (savedTo im + 1) - markerIndex im)
            <= len (entries im)) as Hk by u64_lia.
    rewrite entriesToSave_drop_wrapped; simpl.
    + rewrite drop_app_le by (unfold len in Hk; lia). eauto.
    + unfold len in *. rewrite length_app. lia.
  - rewrite entriesToSave_drop_wrapped; simpl.
    + replace (wrap64 (wrap64 (wrap64 (Entry.Index e0 - 1) + 1)
                       - Entry.Index e0)) with 0 by u64_lia.
      by exists [].
    + unfold len. clear Hub Hlo Hhi. u64_lia.
  - set (s := Z.min (savedTo im) (wrap64 (Entry.Index e0 - 1))).
    assert (wrap64 (wrap64 (s + 1) - markerIndex im) = s + 1 - markerIndex im
            ∧ 0 <= s + 1 - markerIndex im <= Entry.Index e0 - markerIndex im)
      as [Hk Hbound].
    { unfold s. rewrite (wrap64_small (Entry.Index e0 - 1))
        by (unfold u64 in *; lia).
      split; [|lia]. clear Hub Hhi. u64_lia. }
    assert (Z.of_nat (length (take (Z.to_nat (Entry.Index e0 - markerIndex im))
                                (entries im)))
            = Entry.Index e0 - markerIndex im) as Hlen.
    { rewrite length_take. unfold len in *. lia. }
    rewrite entriesToSave_drop_wrapped; simpl; fold s; rewrite Hk.
    + rewrite drop_app_le by lia. eauto.
    + unfold len. rewrite length_app. lia.
Qed.

Lemma entriesToSave_after_merge_witness :
  ∃ pre, entriesToSave
           (mkInMemory None [ent 1 1; ent 2 1; ent 3 2; ent 4 2] 1 0)
         = Ok (pre ++ [ent 3 2; ent 4 2]).
Proof.
  apply (entriesToSave_after_merge window_1_4 _ [ent 3 2; ent 4 2]).
  - apply reachable_invariants, reachable_window_1_4.
  - op_ok_tac.
  - simpl. lia.
  - vm_compute. discriminate.
  - reflexivity.
Defined.

(** *** After [restore] *)

(** X11.  After [restore] of a snapshot whose index is below [2^64 - 1],
    from any window, [getTerm] returns the snapshot's term at the
    snapshot's index and not found at every other index, [getLastIndex]
    reports the snapshot's index, and nothing is to be saved. *)
Theorem restore_then_read (im : inMemory) (ss : Snapshot.t) :
  snapshot_u64 ss → Snapshot.Index ss ≠ maxUint64 →
  getTerm (restore im ss) (Snapshot.Index ss) = Ok (Snapshot.Term ss, true)
  ∧ (∀ i, i ≠ Snapshot.Index ss → getTerm (restore im ss) i = Ok (0, false))
  ∧ getLastIndex (restore im ss) = (Snapshot.Index ss, true)
  ∧ entriesToSave (restore im ss) = Ok [].
Proof.
  intros [Hi _] Hmax.
  assert (wrap64 (Snapshot.Index ss + 1) = Snapshot.Index ss + 1) as Hw
    by u64_lia.
  unfold getTerm, getLastIndex, getSnapshotIndex, entriesToSave. simpl.
  rewrite Hw. repeat split.
  - destruct (Z.ltb_spec (Snapshot.Index ss) (Snapshot.Index ss + 1)); [|lia].
    by rewrite Z.eqb_refl.
  - intros i Hne.
    destruct (Z.ltb_spec i (Snapshot.Index ss + 1)).
    + by destruct (Z.eqb_spec (Snapshot.Index ss) i).
    + by destruct (Z.leb_spec i (Snapshot.Index ss)); [lia|].
  - by replace (wrap64 (Snapshot.Index ss + 1 - (Snapshot.Index ss + 1)))
      with 0 by u64_lia.
Qed.

Lemma restore_then_read_witness :
  getTerm (restore window_1_4 (Snapshot.mk 10 3)) 10 = Ok (3, true)
  ∧ (∀ i, i ≠ 10 → getTerm (restore window_1_4 (Snapshot.mk 10 3)) i
                    = Ok (0, false))
  ∧ getLastIndex (restore window_1_4 (Snapshot.mk 10 3)) = (10, true)
  ∧ entriesToSave (restore window_1_4 (Snapshot.mk 10 3)) = Ok [].
Proof.
  apply (restore_then_read window_1_4 (Snapshot.mk 10 3)).
  - op_ok_tac.
  - vm_compute. discriminate.
Defined.

(** *** The last index *)

(** X12.  In every reachable window the index that [getLastIndex] reports
    is the one just below [markerIndex + len(entries)], in 64-bit
    arithmetic, whether it comes from the buffer or from the pending
    snapshot; it reports none only when the buffer is empty and no snapshot
    is pending. *)
Theorem getLastIndex_reachable (im : inMemory) :
  reachable im →
  (∀ l, getLastIndex im = (l, true) →
     l = wrap64 (markerIndex im + len (entries im) - 1))
  ∧ (∀ l, getLastIndex im = (l, false) →
     entries im = [] ∧ snapshot im = None).
Proof.
  intros Hr.
  destruct (reachable_invariants im Hr) as (Ht & Hb & Hsn).
  pose proof (covers_len_bound im Ht Hb) as Hlen.
  destruct Ht as [Hm _ _ _].
  unfold getLastIndex, getSnapshotIndex.
  destruct (last (entries im)) as [e|] eqn:Hl.
  - split; [|done]. intros l [= <-].
    rewrite (covers_last _ _ _ Hb Hl).
    assert (1 <= len (entries im)).
    { rewrite last_lookup in Hl. apply lookup_lt_Some in Hl. unfold len. lia. }
    symmetry. apply wrap64_small. unfold u64 in *. lia.
  - apply last_None in Hl.
    destruct (snapshot im) as [ss|] eqn:Hss; split; try done.
    intros l [= <-]. rewrite (Hsn Hl ss Hss), Hl. unfold len. simpl.
    by rewrite Z.add_0_r.
Qed.

Lemma getLastIndex_reachable_witness :
  (∀ l, getLastIndex window_1_4 = (l, true) →
     l = wrap64 (markerIndex window_1_4 + len (entries window_1_4) - 1))
  ∧ (∀ l, getLastIndex window_1_4 = (l, false) →
     entries window_1_4 = [] ∧ snapshot window_1_4 = None).
Proof. apply (getLastIndex_reachable window_1_4 reachable_window_1_4). Defined.

(** *** An empty buffer *)

(** X13.  On a reachable window whose buffer is empty, fresh or just
    restored, nothing is to be saved, and [savedLogTo] and [appliedLogTo]
    return the window unchanged for every argument. *)
Theorem empty_buffer_quiescent (im : inMemory) :
  reachable im → entries im = [] →
  entriesToSave im = Ok []
  ∧ (∀ index term, savedLogTo im index term = Ok im)
  ∧ (∀ index, appliedLogTo im index = Ok im).
Proof.
  intros Hr Hnil. pose proof (reachable_empty_savedTo im Hr Hnil) as Hs.
  destruct (reachable_invariants im Hr) as ([Hm _ _ _] & _ & _).
  repeat split.
  - unfold entriesToSave. rewrite Hs, Hnil.
    by replace (wrap64 (wrap64 (wrap64 (markerIndex im - 1) + 1)
                        - markerIndex im)) with 0 by u64_lia.
  - intros index term. unfold savedLogTo. rewrite Hnil. simpl.
    by destruct (index <? markerIndex im).
  - intros index. unfold appliedLogTo. rewrite Hnil. simpl.
    by destruct (index <? markerIndex im).
Qed.

Lemma empty_buffer_quiescent_witness :
  entriesToSave (newInMemory 0) = Ok []
  ∧ (∀ index term, savedLogTo (newInMemory 0) index term
                   = Ok (newInMemory 0))
  ∧ (∀ index, appliedLogTo (newInMemory 0) index = Ok (newInMemory 0)).
Proof.
  apply (empty_buffer_quiescent (newInMemory 0) reachable_fresh).
  reflexivity.
Defined.

(** *** [commitUpdate] *)

(** X14.  On a window whose buffer covers [[markerIndex, markerIndex+len)],
    [commitUpdate] always returns; it keeps the buffer and [markerIndex];
    [savedTo] stays or becomes [StableLogTo], and then [StableLogTo] is a
    buffered index; the pending snapshot stays or is cleared. *)
Theorem commitUpdate_effect (im : inMemory) (cu : UpdateCommit.t) :
  typed im → bufInv im → updateCommit_u64 cu →
  ∃ im', commitUpdate im cu = Ok im'
    ∧ entries im' = entries im
    ∧ markerIndex im' = markerIndex im
    ∧ (savedTo im' = savedTo im
       ∨ (savedTo im' = UpdateCommit.StableLogTo cu
          ∧ markerIndex im <= UpdateCommit.StableLogTo cu
              < markerIndex im + len (entries im)))
    ∧ (snapshot im' = snapshot im ∨ snapshot im' = None).
Proof.
  intros Ht Hb Hcu.
  assert (∃ im', commitUpdate im cu = Ok im') as [im' Hrun].
  { destruct Ht as [Hm _ _ _]. destruct Hcu as (Hto & _ & _).
    unfold commitUpdate.
    destruct (0 <? UpdateCommit.StableLogTo cu);
      [rewrite savedLogTo_spec by done|]; simpl; eauto. }
  exists im'. split; [done|].
  apply commitUpdate_Ok_buffer in Hrun
    as (im1 & [->|[? ->]] & [->| ->]); try done; simpl;
    repeat split; auto.
Qed.

Lemma commitUpdate_effect_witness :
  ∃ im', commitUpdate window_1_4 (UpdateCommit.mk 2 1 0) = Ok im'
    ∧ entries im' = entries window_1_4
    ∧ markerIndex im' = markerIndex window_1_4
    ∧ (savedTo im' = savedTo window_1_4
       ∨ (savedTo im' = 2
          ∧ markerIndex window_1_4 <= 2
              < markerIndex window_1_4 + len (entries window_1_4)))
    ∧ (snapshot im' = snapshot window_1_4 ∨ snapshot im' = None).
Proof.
  pose proof (reachable_invariants _ reachable_window_1_4) as (Ht & Hb & _).
  apply (commitUpdate_effect window_1_4 (UpdateCommit.mk 2 1 0) Ht Hb).
  op_ok_tac.
Defined.

(** *** The pending snapshot *)

(** X15.  The pending snapshot changes only by [restore], which installs
    its argument, or by [savedSnapshotTo], alone or through [commitUpdate],
    called with the index of the pending snapshot, which clears it.
    [merge], [savedLogTo] and [appliedLogTo] never touch it. *)
Theorem snapshot_changes_only_by_restore_or_ack
    (im im' : inMemory) (o : Op) :
  typed im → op_ok o → run o im = Ok im' → snapshot im' ≠ snapshot im →
  (∃ ss, o = Restore ss ∧ snapshot im' = Some ss)
  ∨ (snapshot im' = None
     ∧ ∃ s, snapshot im = Some s
            ∧ (o = SavedSnapshotTo (Snapshot.Index s)
               ∨ ∃ cu, o = CommitUpdate cu
                       ∧ UpdateCommit.StableSnapshotTo cu = Snapshot.Index s)).
Proof.
  intros [Hm _ _ _] Hok Hrun Hne.
  assert (∀ w i, snapshot (savedSnapshotTo w i) ≠ snapshot w →
            snapshot (savedSnapshotTo w i) = None
            ∧ ∃ s, snapshot w = Some s ∧ i = Snapshot.Index s) as Hack.
  { intros w i. unfold savedSnapshotTo, getSnapshotIndex.
    destruct (snapshot w) as [s|] eqn:Hs; simpl; [|by rewrite Hs].
    destruct (Z.eqb_spec (Snapshot.Index s) i) as [<-|]; simpl.
    - intros _. eauto.
    - by rewrite Hs. }
  destruct o as [ents|i t|i|i|cu|ss]; simpl in *.
  - destruct Hok as (Hents & _ & _).
    apply (merge_Ok _ _ _ Hm Hents) in Hrun as (e0 & _ & _ & Hcases).
    by destruct Hcases as [(_ & _ & ->)|[(_ & _ & ->)|(_ & _ & _ & ->)]].
  - by apply savedLogTo_Ok in Hrun as [->|(_ & _ & ->)].
  - by apply appliedLogTo_Ok in Hrun as [->|(_ & _ & ->)].
  - injection Hrun as <-. right.
    destruct (Hack im i Hne) as (Hnone & s & Hs & ->). eauto.
  - unfold commitUpdate in Hrun.
    apply bind_Ok in Hrun as (im1 & H1 & [= <-]).
    assert (snapshot im1 = snapshot im ∧ markerIndex im1 = markerIndex im)
      as [Hsame _].
    { destruct (0 <? UpdateCommit.StableLogTo cu).
      - by apply savedLogTo_Ok in H1 as [->|(_ & _ & ->)].
      - by injection H1 as <-. }
    right. destruct (0 <? UpdateCommit.StableSnapshotTo cu);
      [|by rewrite Hsame in Hne].
    rewrite <- Hsame in Hne.
    destruct (Hack im1 _ Hne) as (Hnone & s & Hs & Heq).
    rewrite Hsame in Hs. eauto 10.
  - injection Hrun as <-. left. eauto.
Qed.

Lemma snapshot_changes_only_by_restore_or_ack_witness :
  (∃ ss, SavedSnapshotTo 10 = Restore ss
         ∧ snapshot (savedSnapshotTo (restore window_1_4 (Snapshot.mk 10 3)) 10)
           = Some ss)
  ∨ (snapshot (savedSnapshotTo (restore window_1_4 (Snapshot.mk 10 3)) 10)
     = None
     ∧ ∃ s, snapshot (restore window_1_4 (Snapshot.mk 10 3)) = Some s
            ∧ (SavedSnapshotTo 10 = SavedSnapshotTo (Snapshot.Index s)
               ∨ ∃ cu, SavedSnapshotTo 10 = CommitUpdate cu
                       ∧ UpdateCommit.StableSnapshotTo cu = Snapshot.Index s)).
Proof.
  apply (snapshot_changes_only_by_restore_or_ack
           (restore window_1_4 (Snapshot.mk 10 3))
           (savedSnapshotTo (restore window_1_4 (Snapshot.mk 10 3)) 10)
           (SavedSnapshotTo 10)).
  - split; simpl; [by apply u64_small|by apply u64_small|by constructor|].
    intros ? [= <-]. op_ok_tac.
  - op_ok_tac.
  - reflexivity.
  - discriminate.
Defined.

(** *** Adjacent ranges of [getEntries] *)

(** X16.  Adjacent ranges join: when [getEntries] is asked for
    [[low, mid)] and [[mid, high)] inside the buffer, both calls return and
    their results, one after the other, are what it returns for
    [[low, high)]. *)
Theorem getEntries_split (im : inMemory) (low mid high : Z) :
  typed im → u64 low → u64 mid → u64 high →
  markerIndex im <= low → low <= mid → mid <= high →
  high <= upperBound im →
  ∃ l1 l2, getEntries im low mid = Ok l1
           ∧ getEntries im mid high = Ok l2
           ∧ getEntries im low high = Ok (l1 ++ l2).
Proof.
  intros [Hm _ _ _] Hlo Hmid Hhi Hge H1 H2 Hub.
  eexists _, _. rewrite !getEntries_Ok by done.
  split; [repeat split; try done; lia|].
  split; [repeat split; try done; lia|].
  repeat split; try lia.
  replace (Z.to_nat (mid - markerIndex im))
    with (Z.to_nat (low - markerIndex im) + Z.to_nat (mid - low))%nat by lia.
  rewrite <- drop_drop, take_take_drop. f_equal. lia.
Qed.

Lemma getEntries_split_witness :
  ∃ l1 l2, getEntries window_1_4 1 3 = Ok l1
           ∧ getEntries window_1_4 3 5 = Ok l2
           ∧ getEntries window_1_4 1 5 = Ok (l1 ++ l2).
Proof.
  apply (getEntries_split window_1_4 1 3 5).
  - apply reachable_invariants, reachable_window_1_4.
  - by apply u64_small.
  - by apply u64_small.
  - by apply u64_small.
  - simpl. lia.
  - lia.
  - lia.
  - vm_compute. discriminate.
Defined.

(** *** [savedLogTo], then [entriesToSave] *)

(** X17.  Once [savedLogTo index term] has moved [savedTo], what is left
    to save is exactly the buffered entries of index above [index].  The
    length of the buffer is an [int] of Go, hence below [2^63]. *)
Theorem entriesToSave_after_savedLogTo
    (im im' : inMemory) (index term : Z) :
  typed im → bufInv im → len (entries im) < 2 ^ 63 → u64 index →
  savedLogTo im index term = Ok im' → savedTo im' ≠ savedTo im →
  entriesToSave im'
  = Ok (filter (λ e, index < Entry.Index e) (entries im)).
Proof.
  intros Ht Hb Hint Hi Hsaved Hchanged.
  pose proof (covers_len_bound im Ht Hb) as Hlen.
  apply savedLogTo_Ok_buffer in Hsaved as [->|[Hin ->]]; try done.
  destruct Ht as [Hm _ _ _].
  assert (wrap64 (wrap64 (index + 1) - markerIndex im)
          = index + 1 - markerIndex im) as Hk by u64_lia.
  rewrite entriesToSave_drop_wrapped; simpl; rewrite Hk; [|lia].
  rewrite <- (covers_filter_from _ _ (index + 1) Hb). f_equal.
  apply list_filter_iff. intros e. lia.
Qed.

Lemma entriesToSave_after_savedLogTo_witness :
  entriesToSave (set_savedTo 2 window_1_4) = Ok [ent 3 1; ent 4 1].
Proof.
  pose proof (reachable_invariants _ reachable_window_1_4) as (Ht & Hb & _).
  apply (entriesToSave_after_savedLogTo window_1_4 _ 2 1 Ht Hb);
    [vm_compute; reflexivity|by apply u64_small|reflexivity
    |vm_compute; discriminate].
Defined.
